(** * Segment service: lifecycle and strategy association

    A shallow embedding of [SegmentService] (services/segment-service.ts)
    and of the collaborators it talks to.  The service is written as
    asynchronous programs over store requests; the stores themselves are
    not part of the service's source and are modelled from their contract.
    [Promise.all] batches are run under an explicit schedule, so that a
    statement quantified over schedules speaks about every interleaving
    of the batch members' store requests. *)

From stdpp Require Import gmap strings list fin_maps pretty.

Set Default Proof Using "Type".
Open Scope Z_scope.

(** ** JavaScript conventions used by the service *)

Module JS.

(** Truthiness of a [string | undefined]: [undefined] and the empty
    string are falsy. *)
Definition truthy (v : option string) : bool :=
  match v with
  | Some s => negb (String.eqb s EmptyString)
  | None => false
  end.

(** [a || b] on [string | undefined]. *)
Definition or (a b : option string) : option string :=
  if truthy a then a else b.

(** [!name] on a string. *)
Definition not_string (s : string) : bool := String.eqb s EmptyString.

(** A [Set] of strings keeps its members in insertion order. *)
Definition Set_add (s : list string) (x : string) : list string :=
  if decide (x ∈ s) then s else s ++ [x].

Definition Set_new (l : list string) : list string := foldl Set_add [] l.

Definition Set_size (s : list string) : Z := Z.of_nat (length s).

(** [set.has(v)] for a [v : string | undefined]; the set holds strings
    only, so [undefined] is never a member. *)
Definition Set_has (s : list string) (v : option string) : bool :=
  match v with
  | Some x => bool_decide (x ∈ s)
  | None => false
  end.

(** [Array.from(set).join(sep)]. *)
Definition join (sep : string) (s : list string) : string :=
  String.concat sep s.

(** A number in a template literal. *)
Definition show (n : Z) : string := pretty n.

End JS.

(** ** Data model *)

(** The service imports its types from modules that are not among its
    sources ([types/model], [types/user], [types/events],
    [types/option], [error/...]); they are modelled from the spec, with
    the fields the service reads and writes under their names in the
    code. *)

(** Modelled from the spec: [IConstraint], a matching condition that
    optionally carries a list of match values. *)
Record IConstraint := {
  contextName : string;
  operator : string;
  values : option (list string)
}.

Module Input.
(** Modelled from the spec: the typed output of [segmentSchema], an
    [Omit<ISegment, 'id'>] with the fields a caller supplies. *)
Record t := {
  name : string;
  description : option string;
  project : option string;
  constraints : list IConstraint
}.
End Input.

(** Modelled from the spec: [ISegment], with the id and the creation
    data the store derives. *)
Record ISegment := {
  id : nat;
  name : string;
  description : option string;
  project : option string;
  constraints : list IConstraint;
  createdBy : option string;
  createdAt : nat
}.

(** Modelled from the spec: [IFeatureStrategy], as far as the strategy
    lookup exposes it: [Strategy{id, projectId}]. *)
Record IFeatureStrategy := {
  strategy_id : string;
  projectId : string
}.

(** Modelled from the spec: the actor, a
    [Partial<Pick<User, 'username' | 'email'>>]. *)
Record User := {
  username : option string;
  email : option string
}.

(** Modelled from the spec: the three event types of [types/events]. *)
Inductive EventType := SEGMENT_CREATED | SEGMENT_UPDATED | SEGMENT_DELETED.

(** Modelled from the spec: what [eventStore.store] receives,
    [{type, createdBy, data, preData?}]. *)
Record IEvent := {
  type : EventType;
  event_createdBy : option string;
  data : ISegment;
  preData : option ISegment
}.

(** Modelled from the spec: the two limits of [IUnleashConfig] the
    service reads. *)
Record IUnleashConfig := {
  strategySegmentsLimit : Z;
  segmentValuesLimit : Z
}.

(** ** Errors *)

(** Modelled from the spec: the error classes that can reach a caller of
    the service.  [BadDataError] and [NameExistsError] are the classes the
    service throws, each with its message; [ValidationError] comes from
    the schema validator and [NotFoundError] from the segment store. *)
Inductive Error :=
| ValidationError
| NotFoundError
| BadDataError (message : string)
| NameExistsError (message : string).

Inductive Result (A : Type) :=
| Ok (a : A)
| Err (e : Error).
Arguments Ok {A} a.
Arguments Err {A} e.

(** The error names of the specification's taxonomy, as the service
    throws them. *)
Definition EmptyNameError : Error :=
  BadDataError "Segment name cannot be empty".

Definition DuplicateNameError : Error :=
  NameExistsError "Segment name already exists".

Definition StrategyLimitExceededError (limit : Z) : Error :=
  BadDataError
    ("Strategies may not have more than " +:+ JS.show limit +:+ " segments").

Definition ValuesLimitExceededError (limit : Z) : Error :=
  BadDataError
    ("Segments may not have more than " +:+ JS.show limit +:+ " values").

Definition InvalidProjectError (projectsUsed : list string) : Error :=
  BadDataError
    ("Invalid project. Segment is being used by strategies in other projects: "
       +:+ JS.join ", " projectsUsed).

(** ** Requests to the stores *)

(** Modelled from the spec: the interfaces [ISegmentStore],
    [IFeatureStrategiesStore] and [IEventStore], as far as the service
    calls them.  One constructor per method, indexed by the type of the
    value the returned promise resolves to. *)
Inductive StoreOp : Type → Type :=
| SegmentStore_get (id : nat) : StoreOp ISegment
| SegmentStore_getAll : StoreOp (list ISegment)
| SegmentStore_getByStrategy (strategyId : string) : StoreOp (list ISegment)
| SegmentStore_existsByName (name : string) : StoreOp bool
| SegmentStore_create (input : Input.t) (user : User) : StoreOp ISegment
| SegmentStore_update (id : nat) (input : Input.t) : StoreOp ISegment
| SegmentStore_delete (id : nat) : StoreOp unit
| SegmentStore_addToStrategy (id : nat) (strategyId : string) : StoreOp unit
| SegmentStore_removeFromStrategy (id : nat) (strategyId : string)
  : StoreOp unit
| FeatureStrategiesStore_getStrategiesBySegment (id : nat)
  : StoreOp (list IFeatureStrategy)
| EventStore_store (event : IEvent) : StoreOp unit.

(** A request with its result type hidden, as recorded in the call log. *)
Inductive Call :=
| call {B : Type} (op : StoreOp B).

(** Requests that write. *)
Definition is_mutation {B} (op : StoreOp B) : bool :=
  match op with
  | SegmentStore_create _ _ | SegmentStore_update _ _
  | SegmentStore_delete _ | SegmentStore_addToStrategy _ _
  | SegmentStore_removeFromStrategy _ _ | EventStore_store _ => true
  | _ => false
  end.

Definition call_is_mutation (c : Call) : bool :=
  match c with call op => is_mutation op end.

(** ** The stores *)

Module Store.

(** A stored segment: everything but its primary key. *)
Record Row := {
  row_input : Input.t;
  row_createdBy : option string;
  row_createdAt : nat
}.

(** Modelled from the spec: the segment store, the strategy lookup and
    the event sink, whose implementations are not part of the service's
    source.  Segments are rows keyed by their id; strategy-segment links
    are a set of (segment id, strategy id) pairs, so no pair occurs
    twice; strategies are kept in store order with their project; the
    event log is append-only.  Failures of the persistence layer itself
    (the spec's opaque [StoreError]) are outside the model: a request
    fails only where the contract says so, with [NotFoundError]. *)
Record t := {
  rows : gmap nat Row;
  links : gset (nat * string);
  strategies : list IFeatureStrategy;
  events : list IEvent;
  clock : nat
}.

Definition empty : t :=
  {| rows := ∅; links := ∅; strategies := []; events := []; clock := 0 |}.

Definition with_rows (f : gmap nat Row → gmap nat Row) (s : t) : t :=
  {| rows := f (rows s); links := links s; strategies := strategies s;
     events := events s; clock := clock s |}.

Definition with_links
    (f : gset (nat * string) → gset (nat * string)) (s : t) : t :=
  {| rows := rows s; links := f (links s); strategies := strategies s;
     events := events s; clock := clock s |}.

Definition with_events (f : list IEvent → list IEvent) (s : t) : t :=
  {| rows := rows s; links := links s; strategies := strategies s;
     events := f (events s); clock := clock s |}.

Definition to_segment (k : nat) (r : Row) : ISegment :=
  {| id := k;
     name := Input.name (row_input r);
     description := Input.description (row_input r);
     project := Input.project (row_input r);
     constraints := Input.constraints (row_input r);
     createdBy := row_createdBy r;
     createdAt := row_createdAt r |}.

(** Modelled from the spec: [getAll], every stored segment, in the
    store's own order. *)
Definition getAll (s : t) : list ISegment :=
  (λ kr, to_segment kr.1 kr.2) <$> map_to_list (rows s).

(** Modelled from the spec: [get(id) -> Segment | NotFound]. *)
Definition get (k : nat) (s : t) : Result ISegment :=
  match rows s !! k with
  | Some r => Ok (to_segment k r)
  | None => Err NotFoundError
  end.

(** Modelled from the spec: [getByStrategy(strategyId)], the segments
    currently linked to the strategy, ordered by the store. *)
Definition getByStrategy (strategyId : string) (s : t) : list ISegment :=
  filter (λ seg, (id seg, strategyId) ∈ links s) (getAll s).

(** Modelled from the spec: [existsByName(name) -> bool], a
    case-sensitive exact match against the stored names. *)
Definition existsByName (n : string) (s : t) : bool :=
  bool_decide (Exists (λ seg, name seg = n) (getAll s)).

(** Modelled from the spec: [create(input, actor) -> Segment], which
    assigns a id no stored segment has and the creation time.  The
    spec names one rule for an actor's identity (email, else username);
    the row records the creator with it. *)
Definition create (input : Input.t) (user : User) (s : t) : ISegment * t :=
  let k := fresh (dom (rows s)) in
  let r := {| row_input := input;
              row_createdBy := JS.or (email user) (username user);
              row_createdAt := clock s |} in
  (to_segment k r, with_rows (insert k r) s).

(** Modelled from the spec: [update(id, input) -> Segment], a full
    replacement of the caller-supplied fields of an existing row. *)
Definition update (k : nat) (input : Input.t) (s : t) : Result ISegment * t :=
  match rows s !! k with
  | Some r =>
      let r' := {| row_input := input;
                   row_createdBy := row_createdBy r;
                   row_createdAt := row_createdAt r |} in
      (Ok (to_segment k r'), with_rows (insert k r') s)
  | None => (Err NotFoundError, s)
  end.

(** Modelled from the spec: [delete(id)], which also removes the
    segment's strategy links. *)
Definition delete (k : nat) (s : t) : t :=
  with_links (filter (λ l, l.1 ≠ k)) (with_rows (base.delete k) s).

(** Modelled from the spec: [addToStrategy(segmentId, strategyId)],
    which creates the link; adding a pair that is present changes
    nothing. *)
Definition addToStrategy (k : nat) (strategyId : string) (s : t) : t :=
  with_links (λ ls, {[ (k, strategyId) ]} ∪ ls) s.

(** Modelled from the spec: [removeFromStrategy(segmentId, strategyId)],
    which deletes the link if present. *)
Definition removeFromStrategy (k : nat) (strategyId : string) (s : t) : t :=
  with_links (λ ls, ls ∖ {[ (k, strategyId) ]}) s.

(** Modelled from the spec: [getStrategiesBySegment(segmentId)], the
    strategies linked to the segment, each with its project. *)
Definition getStrategiesBySegment (k : nat) (s : t) : list IFeatureStrategy :=
  filter (λ st, (k, strategy_id st) ∈ links s) (strategies s).

(** Modelled from the spec: [EventSink.store(event)], an append. *)
Definition storeEvent (ev : IEvent) (s : t) : t :=
  with_events (λ evs, evs ++ [ev]) s.

(** What a request answers and how it changes the stores. *)
Definition exec {B} (op : StoreOp B) (s : t) : Result B * t :=
  match op in StoreOp B return Result B * t with
  | SegmentStore_get k => (get k s, s)
  | SegmentStore_getAll => (Ok (getAll s), s)
  | SegmentStore_getByStrategy sid => (Ok (getByStrategy sid s), s)
  | SegmentStore_existsByName n => (Ok (existsByName n s), s)
  | SegmentStore_create input user =>
      let (seg, s') := create input user s in (Ok seg, s')
  | SegmentStore_update k input => update k input s
  | SegmentStore_delete k => (Ok (), delete k s)
  | SegmentStore_addToStrategy k sid => (Ok (), addToStrategy k sid s)
  | SegmentStore_removeFromStrategy k sid =>
      (Ok (), removeFromStrategy k sid s)
  | FeatureStrategiesStore_getStrategiesBySegment k =>
      (Ok (getStrategiesBySegment k s), s)
  | EventStore_store ev => (Ok (), storeEvent ev s)
  end.

End Store.

(** ** The world a request runs in *)

(** The stores together with the log of every request they have served,
    oldest first. *)
Record World := {
  store : Store.t;
  calls : list Call
}.

Definition perform {B} (op : StoreOp B) (w : World) : Result B * World :=
  let (r, s') := Store.exec op (store w) in
  (r, {| store := s'; calls := calls w ++ [call op] |}).

(** ** Asynchronous programs *)

(** An [async] function body: it returns, throws, or awaits one store
    request and continues with its answer.  A request that is rejected
    makes the awaiting function throw, as no method of the service
    catches. *)
Inductive Async (A : Type) : Type :=
| Return (a : A)
| Throw (e : Error)
| Await {B : Type} (op : StoreOp B) (k : B → Async A).
Arguments Return {A} a.
Arguments Throw {A} e.
Arguments Await {A B} op k.

Fixpoint bind {A B} (m : Async A) (f : A → Async B) : Async B :=
  match m with
  | Return a => f a
  | Throw e => Throw e
  | Await op k => Await op (λ b, bind (k b) f)
  end.

#[global] Instance Async_bind : MBind Async := λ A B f m, bind m f.
#[global] Instance Async_ret : MRet Async := λ A a, Return a.

(** [await store.method(...)]. *)
Definition await {B} (op : StoreOp B) : Async B := Await op Return.

(** Running one program to its end, with nothing else touching the
    stores in between. *)
Fixpoint run {A} (m : Async A) (w : World) : Result A * World :=
  match m with
  | Return a => (Ok a, w)
  | Throw e => (Err e, w)
  | Await op k =>
      match perform op w with
      | (Ok b, w') => run (k b) w'
      | (Err e, w') => (Err e, w')
      end
  end.

(** ** [Promise.all] over a batch *)

(** The members of a batch are started together and each proceeds one
    store request at a time; which member's pending request the stores
    serve next is not fixed by the service.  A batch state holds what is
    left of every member, the first rejection seen so far, and the
    world. *)
Record Batch := {
  tasks : list (Async unit);
  rejected : option Error;
  world : World
}.

Definition rejection (t : Async unit) : option Error :=
  match t with
  | Throw e => Some e
  | _ => None
  end.

Definition settled (t : Async unit) : bool :=
  match t with
  | Await _ _ => false
  | _ => true
  end.

(** The stores serve the pending request of one member, which then runs
    on to its next request or to its end. *)
Definition resume (t : Async unit) (w : World) : Async unit * World :=
  match t with
  | Await op k =>
      match perform op w with
      | (Ok b, w') => (k b, w')
      | (Err e, w') => (Throw e, w')
      end
  | _ => (t, w)
  end.

(** Member [i] takes a step; the first member to throw decides the
    rejection of the batch. *)
Definition advance (b : Batch) (i : nat) : Batch :=
  match tasks b !! i with
  | Some t =>
      let (t', w') := resume t (world b) in
      {| tasks := <[i := t']> (tasks b);
         rejected := match rejected b with
                     | Some e => Some e
                     | None => rejection t'
                     end;
         world := w' |}
  | None => b
  end.

(** The number of requests a member still makes when it runs alone from
    the given world. *)
Fixpoint remaining (t : Async unit) (w : World) : nat :=
  match t with
  | Await op k =>
      match perform op w with
      | (Ok b, w') => S (remaining (k b) w')
      | (Err _, _) => 1%nat
      end
  | _ => 0%nat
  end.

(** Member [i] runs until it has settled. *)
Definition finish (b : Batch) (i : nat) : Batch :=
  match tasks b !! i with
  | Some t => foldl advance b (replicate (remaining t (world b)) i)
  | None => b
  end.

(** The batch as [Promise.all] receives it.  A member that has thrown
    before its first request already decides the rejection. *)
Definition start (ts : list (Async unit)) (w : World) : Batch :=
  {| tasks := ts;
     rejected := list_find (λ t, is_Some (rejection t)) ts
                   ≫= (λ it, rejection it.2);
     world := w |}.

(** The members' requests are served in the order the schedule names
    them; members the schedule leaves unsettled are then run to their end
    in turn, so the batch always settles completely. *)
Definition settle_all (schedule : list nat) (b : Batch) : Batch :=
  foldl finish (foldl advance b schedule) (seq 0 (length (tasks b))).

Definition outcome (b : Batch) : Result unit * World :=
  (match rejected b with
   | Some e => Err e
   | None => Ok ()
   end, world b).

(** [await Promise.all(tasks)].  The result is the first rejection, if
    any; members that were still running at that point are not cancelled,
    and their effects are in the resulting world. *)
Definition Promise_all (schedule : list nat) (ts : list (Async unit))
    (w : World) : Result unit * World :=
  outcome (settle_all schedule (start ts w)).

(** A method that awaits batches is a function of the world; its
    sequencing stops at the first error. *)
Definition Process (A : Type) : Type := World → Result A * World.

#[global] Instance Process_bind : MBind Process := λ A B f m w,
  match m w with
  | (Ok a, w') => f a w'
  | (Err e, w') => (Err e, w')
  end.
#[global] Instance Process_ret : MRet Process := λ A a w, (Ok a, w).

Definition throw {A} (e : Error) : Process A := λ w, (Err e, w).

(** ** The service *)

Module SegmentService.
Section Service.

(** [this.config], read at each call. *)
Context (config : IUnleashConfig).

(** [segmentSchema.validateAsync]: the structural validator, a black
    box that either yields the typed input or fails. *)
Context {Raw : Type} (segmentSchema : Raw → option Input.t).

Definition validateAsync (data : Raw) : Async Input.t :=
  match segmentSchema data with
  | Some input => Return input
  | None => Throw ValidationError
  end.

Definition get (id : nat) : Async ISegment :=
  await (SegmentStore_get id).

Definition getAll : Async (list ISegment) :=
  await SegmentStore_getAll.

Definition getByStrategy (strategyId : string) : Async (list ISegment) :=
  await (SegmentStore_getByStrategy strategyId).

Definition getStrategies (id : nat) : Async (list IFeatureStrategy) :=
  await (FeatureStrategiesStore_getStrategiesBySegment id).

(** [segment.constraints.flatMap(c => c.values?.length ?? 0)
      .reduce((acc, length) => acc + length, 0)]. *)
Definition valuesCount (segment : Input.t) : nat :=
  foldl (λ acc length, acc + length)%nat 0%nat
    ((λ constraint,
        match values constraint with
        | Some vs => length vs
        | None => 0%nat
        end) <$> Input.constraints segment).

Definition validateSegmentValuesLimit (segment : Input.t) : Async unit :=
  let segmentValuesLimit := segmentValuesLimit config in
  if Z.of_nat (valuesCount segment) >? segmentValuesLimit
  then Throw (ValuesLimitExceededError segmentValuesLimit)
  else Return ().

Definition validateName (name : string) : Async unit :=
  if JS.not_string name then Throw EmptyNameError
  else
    taken ← await (SegmentStore_existsByName name);
    if taken : bool then Throw DuplicateNameError else Return ().

Definition validateStrategySegmentLimit (strategyId : string) : Async unit :=
  let strategySegmentsLimit := strategySegmentsLimit config in
  segments ← getByStrategy strategyId;
  if Z.of_nat (length segments) >=? strategySegmentsLimit
  then Throw (StrategyLimitExceededError strategySegmentsLimit)
  else Return ().

Definition validateSegmentProject (id : nat) (segment : Input.t)
  : Async unit :=
  strategies ← await (FeatureStrategiesStore_getStrategiesBySegment id);
  let projectsUsed := JS.Set_new (projectId <$> strategies) in
  if JS.truthy (Input.project segment)
     && ((JS.Set_size projectsUsed >? 1)
         || ((JS.Set_size projectsUsed =? 1)
             && negb (JS.Set_has projectsUsed (Input.project segment))))
  then Throw (InvalidProjectError projectsUsed)
  else Return ().

Definition create (data : Raw) (user : User) : Async ISegment :=
  input ← validateAsync data;
  validateSegmentValuesLimit input;;
  validateName (Input.name input);;
  segment ← await (SegmentStore_create input user);
  await (EventStore_store
           {| type := SEGMENT_CREATED;
              event_createdBy := JS.or (email user) (username user);
              data := segment;
              preData := None |});;
  Return segment.

Definition update (id : nat) (data : Raw) (user : User) : Async unit :=
  input ← validateAsync data;
  validateSegmentValuesLimit input;;
  preData ← await (SegmentStore_get id);
  (if decide (name preData ≠ Input.name input)
   then validateName (Input.name input)
   else Return ());;
  validateSegmentProject id input;;
  segment ← await (SegmentStore_update id input);
  await (EventStore_store
           {| type := SEGMENT_UPDATED;
              event_createdBy := JS.or (email user) (username user);
              data := segment;
              preData := Some preData |}).

Definition delete (id : nat) (user : User) : Async unit :=
  segment ← await (SegmentStore_get id);
  await (SegmentStore_delete id);;
  await (EventStore_store
           {| type := SEGMENT_DELETED;
              event_createdBy := JS.or (email user) (username user);
              data := segment;
              preData := None |}).

Definition addToStrategy (id : nat) (strategyId : string) : Async unit :=
  validateStrategySegmentLimit strategyId;;
  await (SegmentStore_addToStrategy id strategyId).

Definition removeFromStrategy (id : nat) (strategyId : string)
  : Async unit :=
  await (SegmentStore_removeFromStrategy id strategyId).

(** The schedule is the order in which the stores serve the requests of
    the batch of additions. *)
Definition cloneStrategySegments (adding : list nat)
    (sourceStrategyId targetStrategyId : string) : Process unit :=
  sourceStrategySegments ← run (getByStrategy sourceStrategyId);
  Promise_all adding
    ((λ sourceStrategySegment,
        addToStrategy (id sourceStrategySegment) targetStrategyId)
       <$> sourceStrategySegments).

(** One schedule for the batch of removals, one for the batch of
    additions. *)
Definition updateStrategySegments (removing adding : list nat)
    (strategyId : string) (segmentIds : list nat) : Process unit :=
  if Z.of_nat (length segmentIds) >? strategySegmentsLimit config
  then throw (StrategyLimitExceededError (strategySegmentsLimit config))
  else
    segments ← run (getByStrategy strategyId);
    let currentSegmentIds := id <$> segments in
    let segmentIdsToRemove :=
      filter (λ id, id ∉ segmentIds) currentSegmentIds in
    Promise_all removing
      ((λ segmentId, removeFromStrategy segmentId strategyId)
         <$> segmentIdsToRemove);;
    let segmentIdsToAdd :=
      filter (λ id, id ∉ currentSegmentIds) segmentIds in
    Promise_all adding
      ((λ segmentId, addToStrategy segmentId strategyId)
         <$> segmentIdsToAdd).

End Service.
End SegmentService.

(** ** Vocabulary of the statements *)

(** The world after further requests have been served. *)
Definition log (w : World) (cs : list Call) (s : Store.t) : World :=
  {| store := s; calls := calls w ++ cs |}.

(** The audit events the three mutations emit. *)
Definition created_event (user : User) (segment : ISegment) : IEvent :=
  {| type := SEGMENT_CREATED;
     event_createdBy := JS.or (email user) (username user);
     data := segment;
     preData := None |}.

Definition updated_event (user : User) (pre segment : ISegment) : IEvent :=
  {| type := SEGMENT_UPDATED;
     event_createdBy := JS.or (email user) (username user);
     data := segment;
     preData := Some pre |}.

Definition deleted_event (user : User) (segment : ISegment) : IEvent :=
  {| type := SEGMENT_DELETED;
     event_createdBy := JS.or (email user) (username user);
     data := segment;
     preData := None |}.

(** A request that asks the segment store whether a name is taken. *)
Definition call_is_existsByName (c : Call) : bool :=
  match c with
  | call (SegmentStore_existsByName _) => true
  | call _ => false
  end.

(** The project-scope rule in the specification's words: the candidate's
    project is set (it is a non-empty string), and either two distinct
    projects occur among the strategies that use the segment, or a single
    one does and it is not the candidate's. *)
Definition violates_project_scope (candidate : option string)
    (projects : list string) : Prop :=
  JS.truthy candidate = true
  ∧ ((∃ p q, p ∈ projects ∧ q ∈ projects ∧ p ≠ q)
     ∨ (∃ p, p ∈ projects ∧ (∀ q, q ∈ projects → q = p)
             ∧ candidate ≠ Some p)).

(** The number of members of a batch that have not settled yet. *)
Definition pending (ts : list (Async unit)) : nat :=
  length (filter (λ t, settled t = false) ts).

(** ** A small world to run the service in *)

Module Sample.

Definition config : IUnleashConfig :=
  {| strategySegmentsLimit := 2; segmentValuesLimit := 3 |}.

Definition input (n : string) (p : option string) (vs : list string)
  : Input.t :=
  {| Input.name := n;
     Input.description := None;
     Input.project := p;
     Input.constraints :=
       [{| contextName := "country"; operator := "IN"; values := Some vs |};
        {| contextName := "beta"; operator := "EXISTS"; values := None |}] |}.

Definition row (n : string) : Store.Row :=
  {| Store.row_input := input n None ["de"; "fr"];
     Store.row_createdBy := Some "admin";
     Store.row_createdAt := 0 |}.

(** Three segments; the first two are on ["strat-1"], which is thereby
    at the limit of two; the first is also on ["strat-2"], in another
    project. *)
Definition segments : Store.t :=
  {| Store.rows :=
       list_to_map [(0%nat, row "eu-users"); (1%nat, row "beta-users");
                    (2%nat, row "staff")];
     Store.links :=
       list_to_set [(0%nat, "strat-1"); (1%nat, "strat-1");
                    (0%nat, "strat-2")];
     Store.strategies :=
       [{| strategy_id := "strat-1"; projectId := "P" |};
        {| strategy_id := "strat-2"; projectId := "Q" |};
        {| strategy_id := "strat-3"; projectId := "P" |}];
     Store.events := [];
     Store.clock := 7 |}.

Definition world : World := {| store := segments; calls := [] |}.

(** An actor with an empty email, and one with no identity at all. *)
Definition admin : User := {| username := Some "admin"; email := Some EmptyString |}.
Definition nobody : User := {| username := None; email := None |}.

(** A validator that takes typed input as it comes and refuses the
    rest. *)
Definition segmentSchema (raw : option Input.t) : option Input.t := raw.

End Sample.

(** * Properties *)

(** ** Running asynchronous programs *)

Lemma run_bind {A B} (m : Async A) (f : A → Async B) (w : World) :
  run (m ≫= f) w =
  match run m w with
  | (Ok a, w') => run (f a) w'
  | (Err e, w') => (Err e, w')
  end.
Proof.
  revert w. induction m as [a|e|C op k IH]; intros w; try done.
  change (run (Await op k ≫= f) w)
    with (match perform op w with
          | (Ok b, w') => run (k b ≫= f) w'
          | (Err e, w') => (Err e, w')
          end).
  simpl. destruct (perform op w) as [[b|e] w']; [apply IH | done].
Qed.

Lemma run_await {B} (op : StoreOp B) (w : World) :
  run (await op) w = perform op w.
Proof. simpl. by destruct (perform op w) as [[b|e] w']. Qed.

Lemma perform_calls {B} (op : StoreOp B) (w : World) :
  calls (perform op w).2 = calls w ++ [call op].
Proof. unfold perform. by destruct (Store.exec op (store w)). Qed.

Lemma perform_store {B} (op : StoreOp B) (w : World) :
  store (perform op w).2 = (Store.exec op (store w)).2.
Proof. unfold perform. by destruct (Store.exec op (store w)). Qed.

Lemma perform_result {B} (op : StoreOp B) (w : World) :
  (perform op w).1 = (Store.exec op (store w)).1.
Proof. unfold perform. by destruct (Store.exec op (store w)). Qed.

(** A request that only reads leaves the stores as they are. *)
Lemma exec_read {B} (op : StoreOp B) (s : Store.t) :
  is_mutation op = false → (Store.exec op s).2 = s.
Proof. by destruct op. Qed.

(** ** The methods that make no batch, request by request *)

Section Sequential.
Context (config : IUnleashConfig).
Context {Raw : Type} (segmentSchema : Raw → option Input.t).

Lemma perform_eq {B} (op : StoreOp B) (w : World) :
  perform op w =
  ((Store.exec op (store w)).1, log w [call op] (Store.exec op (store w)).2).
Proof. unfold perform. by destruct (Store.exec op (store w)). Qed.

Lemma run_validateName (n : string) (w : World) :
  run (SegmentService.validateName n) w =
  if JS.not_string n then (Err EmptyNameError, w)
  else if Store.existsByName n (store w)
       then (Err DuplicateNameError,
             log w [call (SegmentStore_existsByName n)] (store w))
       else (Ok (), log w [call (SegmentStore_existsByName n)] (store w)).
Proof.
  unfold SegmentService.validateName.
  destruct (JS.not_string n); [done|].
  cbn. by destruct (Store.existsByName n (store w)).
Qed.

Lemma run_validateStrategySegmentLimit (strategyId : string) (w : World) :
  run (SegmentService.validateStrategySegmentLimit config strategyId) w =
  let w' := log w [call (SegmentStore_getByStrategy strategyId)] (store w) in
  if Z.of_nat (length (Store.getByStrategy strategyId (store w)))
     >=? strategySegmentsLimit config
  then (Err (StrategyLimitExceededError (strategySegmentsLimit config)), w')
  else (Ok (), w').
Proof.
  unfold SegmentService.validateStrategySegmentLimit. cbn.
  by destruct (_ >=? _).
Qed.

Lemma run_addToStrategy (id : nat) (strategyId : string) (w : World) :
  run (SegmentService.addToStrategy config id strategyId) w =
  if Z.of_nat (length (Store.getByStrategy strategyId (store w)))
     >=? strategySegmentsLimit config
  then (Err (StrategyLimitExceededError (strategySegmentsLimit config)),
        log w [call (SegmentStore_getByStrategy strategyId)] (store w))
  else (Ok (),
        log w [call (SegmentStore_getByStrategy strategyId);
               call (SegmentStore_addToStrategy id strategyId)]
          (Store.addToStrategy id strategyId (store w))).
Proof.
  unfold SegmentService.addToStrategy.
  rewrite run_bind, run_validateStrategySegmentLimit. cbn.
  destruct (_ >=? _); [done|]. cbn. unfold log. cbn.
  by rewrite <- app_assoc.
Qed.

Lemma run_validateSegmentProject (id : nat) (segment : Input.t) (w : World) :
  run (SegmentService.validateSegmentProject id segment) w =
  let projectsUsed :=
    JS.Set_new (projectId <$> Store.getStrategiesBySegment id (store w)) in
  let w' :=
    log w [call (FeatureStrategiesStore_getStrategiesBySegment id)]
      (store w) in
  if JS.truthy (Input.project segment)
     && ((JS.Set_size projectsUsed >? 1)
         || ((JS.Set_size projectsUsed =? 1)
             && negb (JS.Set_has projectsUsed (Input.project segment))))
  then (Err (InvalidProjectError projectsUsed), w')
  else (Ok (), w').
Proof.
  unfold SegmentService.validateSegmentProject. cbn.
  by destruct (_ && _).
Qed.

Lemma run_create (data : Raw) (user : User) (w : World) :
  run (SegmentService.create config segmentSchema data user) w =
  match segmentSchema data with
  | None => (Err ValidationError, w)
  | Some input =>
      if Z.of_nat (SegmentService.valuesCount input)
         >? segmentValuesLimit config
      then (Err (ValuesLimitExceededError (segmentValuesLimit config)), w)
      else
        match run (SegmentService.validateName (Input.name input)) w with
        | (Err e, w1) => (Err e, w1)
        | (Ok _, w1) =>
            let (segment, s2) := Store.create input user (store w1) in
            (Ok segment,
             log w1 [call (SegmentStore_create input user);
                     call (EventStore_store (created_event user segment))]
               (Store.storeEvent (created_event user segment) s2))
        end
  end.
Proof.
  unfold SegmentService.create, SegmentService.validateAsync.
  destruct (segmentSchema data) as [input|]; [|done].
  change (mbind ?f (Return input)) with (f input). cbv beta.
  unfold SegmentService.validateSegmentValuesLimit. cbv zeta.
  destruct (_ >? _); [done|].
  change (mbind ?f (Return ())) with (f ()). cbv beta.
  rewrite run_bind.
  destruct (run (SegmentService.validateName _) w) as [[[]|e] w1]; [|done].
  cbn. unfold log. cbn. by rewrite <- app_assoc.
Qed.

Lemma run_update (id : nat) (data : Raw) (user : User) (w : World) :
  run (SegmentService.update config segmentSchema id data user) w =
  match segmentSchema data with
  | None => (Err ValidationError, w)
  | Some input =>
      if Z.of_nat (SegmentService.valuesCount input)
         >? segmentValuesLimit config
      then (Err (ValuesLimitExceededError (segmentValuesLimit config)), w)
      else
        let w1 := log w [call (SegmentStore_get id)] (store w) in
        match Store.get id (store w) with
        | Err e => (Err e, w1)
        | Ok pre =>
            match (if decide (name pre ≠ Input.name input)
                   then run (SegmentService.validateName (Input.name input))
                          w1
                   else (Ok (), w1)) with
            | (Err e, w2) => (Err e, w2)
            | (Ok _, w2) =>
                match run (SegmentService.validateSegmentProject id input)
                        w2 with
                | (Err e, w3) => (Err e, w3)
                | (Ok _, w3) =>
                    match Store.update id input (store w3) with
                    | (Err e, s4) =>
                        (Err e, log w3 [call (SegmentStore_update id input)] s4)
                    | (Ok segment, s4) =>
                        (Ok (),
                         log w3
                           [call (SegmentStore_update id input);
                            call (EventStore_store
                                    (updated_event user pre segment))]
                           (Store.storeEvent
                              (updated_event user pre segment) s4))
                    end
                end
            end
        end
  end.
Proof.
  unfold SegmentService.update, SegmentService.validateAsync.
  destruct (segmentSchema data) as [input|]; [|done].
  change (mbind ?f (Return input)) with (f input). cbv beta.
  unfold SegmentService.validateSegmentValuesLimit. cbv zeta.
  destruct (_ >? _); [done|].
  change (mbind ?f (Return ())) with (f ()). cbv beta.
  rewrite (run_bind (await (SegmentStore_get id))), run_await, perform_eq.
  cbn [Store.exec fst snd].
  destruct (Store.get id (store w)) as [pre|e]; [|done].
  rewrite (run_bind (if decide _ then _ else _)).
  replace (run (if decide (name pre ≠ Input.name input)
                then SegmentService.validateName (Input.name input)
                else Return ()) _)
    with (if decide (name pre ≠ Input.name input)
          then run (SegmentService.validateName (Input.name input))
                 (log w [call (SegmentStore_get id)] (store w))
          else (Ok (), log w [call (SegmentStore_get id)] (store w)))
    by (by destruct (decide _)).
  destruct (if decide _ then _ else _) as [[[]|e] w2]; [|done].
  rewrite (run_bind (SegmentService.validateSegmentProject _ _)).
  destruct (run (SegmentService.validateSegmentProject _ _) w2)
    as [[[]|e] w3]; [|done].
  cbn. rewrite perform_eq. cbn [Store.exec].
  destruct (Store.update id input (store w3)) as [[segment|e] s4];
    cbn; unfold log; cbn; [by rewrite <- app_assoc | done].
Qed.

Lemma run_delete (id : nat) (user : User) (w : World) :
  run (SegmentService.delete id user) w =
  match Store.get id (store w) with
  | Err e => (Err e, log w [call (SegmentStore_get id)] (store w))
  | Ok segment =>
      (Ok (),
       log w [call (SegmentStore_get id); call (SegmentStore_delete id);
              call (EventStore_store (deleted_event user segment))]
         (Store.storeEvent (deleted_event user segment)
            (Store.delete id (store w))))
  end.
Proof.
  unfold SegmentService.delete. cbn.
  destruct (Store.get id (store w)) as [segment|e]; [|done].
  cbn. unfold log. cbn. by rewrite <- !app_assoc.
Qed.

End Sequential.

(** ** The stores *)

Lemma elem_of_getAll (seg : ISegment) (s : Store.t) :
  seg ∈ Store.getAll s ↔
  ∃ r, Store.rows s !! id seg = Some r ∧ seg = Store.to_segment (id seg) r.
Proof.
  unfold Store.getAll. rewrite list_elem_of_fmap. split.
  - intros [[k r] [-> Hkr]]. apply elem_of_map_to_list in Hkr. by exists r.
  - intros [r [Hr Hseg]]. exists (id seg, r). split; [done|].
    by apply elem_of_map_to_list.
Qed.

Lemma getAll_ids (s : Store.t) :
  id <$> Store.getAll s = (map_to_list (Store.rows s)).*1.
Proof.
  unfold Store.getAll. rewrite <- list_fmap_compose. by apply list_fmap_ext.
Qed.

Lemma NoDup_getAll_ids (s : Store.t) : NoDup (id <$> Store.getAll s).
Proof. rewrite getAll_ids. apply NoDup_fst_map_to_list. Qed.

Lemma elem_of_getByStrategy (seg : ISegment) (sid : string) (s : Store.t) :
  seg ∈ Store.getByStrategy sid s ↔
  seg ∈ Store.getAll s ∧ (id seg, sid) ∈ Store.links s.
Proof. unfold Store.getByStrategy. rewrite list_elem_of_filter. tauto. Qed.

Lemma elem_of_getByStrategy_ids (k : nat) (sid : string) (s : Store.t) :
  k ∈ id <$> Store.getByStrategy sid s ↔
  is_Some (Store.rows s !! k) ∧ (k, sid) ∈ Store.links s.
Proof.
  rewrite list_elem_of_fmap. split.
  - intros [seg [-> Hseg]]. apply elem_of_getByStrategy in Hseg as [Hall Hl].
    apply elem_of_getAll in Hall as [r [Hr _]]. eauto.
  - intros [[r Hr] Hl]. exists (Store.to_segment k r). split; [done|].
    apply elem_of_getByStrategy. split; [|done].
    apply elem_of_getAll. by exists r.
Qed.

Lemma NoDup_getByStrategy_ids (sid : string) (s : Store.t) :
  NoDup (id <$> Store.getByStrategy sid s).
Proof.
  unfold Store.getByStrategy.
  eapply sublist_NoDup; [apply (NoDup_getAll_ids s)|].
  apply fmap_sublist, sublist_filter.
Qed.

Lemma existsByName_true (n : string) (s : Store.t) :
  Store.existsByName n s = true ↔ ∃ seg, seg ∈ Store.getAll s ∧ name seg = n.
Proof.
  unfold Store.existsByName. rewrite bool_decide_eq_true, Exists_exists.
  done.
Qed.

(** ** Adding one segment to a strategy *)

(** C3. [addToStrategy(segmentId, strategyId)] fails with the limit error
    exactly when the number of segments linked to the strategy is at
    least [strategySegmentsLimit]; on that failure the stores, and with
    them the links of the strategy, are as before the call; otherwise the
    call succeeds and the link is created, so that an existing segment is
    among those [getByStrategy] returns afterwards. *)
Theorem addToStrategy_limit (config : IUnleashConfig) (segmentId : nat)
    (strategyId : string) (w : World) :
  let limit := strategySegmentsLimit config in
  let count := Z.of_nat (length (Store.getByStrategy strategyId (store w))) in
  let out := run (SegmentService.addToStrategy config segmentId strategyId) w in
  (out.1 = Err (StrategyLimitExceededError limit) ↔ limit ≤ count)
  ∧ (limit ≤ count → store out.2 = store w)
  ∧ (count < limit →
     out.1 = Ok ()
     ∧ store out.2 = Store.addToStrategy segmentId strategyId (store w)
     ∧ (segmentId, strategyId) ∈ Store.links (store out.2)
     ∧ (is_Some (Store.rows (store w) !! segmentId) →
        segmentId ∈ id <$> Store.getByStrategy strategyId (store out.2))).
Proof.
  intros limit count out. subst out. rewrite run_addToStrategy.
  fold limit count. destruct (Z.geb_spec count limit) as [Hge|Hlt]; cbn.
  - split; [split; [lia|done]|]. split; [done|lia].
  - split; [split; [done|lia]|]. split; [lia|]. intros _.
    split; [done|]. split; [done|].
    assert ((segmentId, strategyId)
              ∈ Store.links (Store.addToStrategy segmentId strategyId (store w)))
      as Hin by (cbn; set_solver).
    split; [done|]. intros Hrow.
    apply elem_of_getByStrategy_ids. by split.
Qed.

(** ** Audit events *)

Lemma get_Ok (k : nat) (s : Store.t) (seg : ISegment) :
  Store.get k s = Ok seg ↔
  ∃ r, Store.rows s !! k = Some r ∧ seg = Store.to_segment k r.
Proof.
  unfold Store.get. destruct (Store.rows s !! k) as [r|]; split.
  - intros [= <-]. by exists r.
  - by intros [r' [[= <-] ->]].
  - done.
  - by intros [r' [? _]].
Qed.

Lemma actor_identity (user : User) :
  (∀ e, email user = Some e → e ≠ EmptyString →
        JS.or (email user) (username user) = Some e)
  ∧ (email user = None → JS.or (email user) (username user) = username user).
Proof.
  unfold JS.or. split.
  - intros e -> Hne. cbn. destruct (String.eqb_spec e EmptyString); done.
  - by intros ->.
Qed.

(** C7. A successful create, update or delete stores exactly one audit
    event, as its last request and right after its one write to the
    segment store: [SEGMENT_CREATED] with the new segment,
    [SEGMENT_UPDATED] with the new segment and the one it replaces, or
    [SEGMENT_DELETED] with the segment as it was.  The event's
    [createdBy] is the actor's email, or the username when there is no
    email. *)
Theorem mutation_emits_one_event (config : IUnleashConfig) {Raw : Type}
    (segmentSchema : Raw → option Input.t) (user : User) (w : World) :
  (∀ raw segment w',
     run (SegmentService.create config segmentSchema raw user) w
       = (Ok segment, w') →
     ∃ input reads ev,
       calls w' = calls w ++ reads ++
                  [call (SegmentStore_create input user);
                   call (EventStore_store ev)]
       ∧ Forall (λ c, call_is_mutation c = false) reads
       ∧ Store.events (store w') = Store.events (store w) ++ [ev]
       ∧ type ev = SEGMENT_CREATED ∧ data ev = segment ∧ preData ev = None
       ∧ event_createdBy ev = JS.or (email user) (username user)
       ∧ Store.get (id segment) (store w') = Ok segment)
  ∧ (∀ k raw w',
       run (SegmentService.update config segmentSchema k raw user) w
         = (Ok (), w') →
       ∃ input reads ev pre segment,
         calls w' = calls w ++ reads ++
                    [call (SegmentStore_update k input);
                     call (EventStore_store ev)]
         ∧ Forall (λ c, call_is_mutation c = false) reads
         ∧ Store.events (store w') = Store.events (store w) ++ [ev]
         ∧ type ev = SEGMENT_UPDATED ∧ data ev = segment
         ∧ preData ev = Some pre
         ∧ event_createdBy ev = JS.or (email user) (username user)
         ∧ Store.get k (store w) = Ok pre
         ∧ Store.get k (store w') = Ok segment)
  ∧ (∀ k w',
       run (SegmentService.delete k user) w = (Ok (), w') →
       ∃ ev pre,
         calls w' = calls w ++
                    [call (SegmentStore_get k); call (SegmentStore_delete k);
                     call (EventStore_store ev)]
         ∧ Store.events (store w') = Store.events (store w) ++ [ev]
         ∧ type ev = SEGMENT_DELETED ∧ data ev = pre ∧ preData ev = None
         ∧ event_createdBy ev = JS.or (email user) (username user)
         ∧ Store.get k (store w) = Ok pre
         ∧ Store.get k (store w') = Err NotFoundError)
  ∧ (∀ e, email user = Some e → e ≠ EmptyString →
          JS.or (email user) (username user) = Some e)
  ∧ (email user = None → JS.or (email user) (username user) = username user).
Proof.
  split; [|split; [|split; [|apply actor_identity]]].
  - intros raw segment w'. rewrite run_create.
    destruct (segmentSchema raw) as [input|]; [|done].
    destruct (_ >? _); [done|]. rewrite run_validateName.
    destruct (JS.not_string _); [done|].
    destruct (Store.existsByName _ _); [done|].
    cbn. intros [= <- <-].
    exists input, [call (SegmentStore_existsByName (Input.name input))].
    eexists. cbn. rewrite <- app_assoc. split; [done|].
    split; [by repeat constructor|]. split; [done|].
    repeat (split; [done|]).
    apply get_Ok. eexists. split; [apply lookup_insert_eq|done].
  - intros k raw w'. rewrite run_update.
    destruct (segmentSchema raw) as [input|]; [|done].
    destruct (_ >? _); [done|]. cbv zeta.
    destruct (Store.get k (store w)) as [pre|] eqn:Hget; [|done].
    apply get_Ok in Hget as [r [Hr ->]].
    set (w1 := log w _ _).
    assert (∀ (w2 : World) reads,
              store w2 = store w → calls w2 = calls w ++ reads →
              Forall (λ c, call_is_mutation c = false) reads →
              match run (SegmentService.validateSegmentProject k input) w2
              with
              | (Ok _, w3) =>
                  match Store.update k input (store w3) with
                  | (Ok segment, s4) =>
                      (Ok (),
                       log w3
                         [call (SegmentStore_update k input);
                          call (EventStore_store
                                  (updated_event user
                                     (Store.to_segment k r) segment))]
                         (Store.storeEvent
                            (updated_event user (Store.to_segment k r)
                               segment) s4))
                  | (Err e, s4) =>
                      (Err e, log w3 [call (SegmentStore_update k input)] s4)
                  end
              | (Err e, w3) => (Err e, w3)
              end = (Ok (), w') →
              ∃ input0 reads0 ev pre segment,
                calls w' = calls w ++ reads0 ++
                           [call (SegmentStore_update k input0);
                            call (EventStore_store ev)]
                ∧ Forall (λ c, call_is_mutation c = false) reads0
                ∧ Store.events (store w') = Store.events (store w) ++ [ev]
                ∧ type ev = SEGMENT_UPDATED ∧ data ev = segment
                ∧ preData ev = Some pre
                ∧ event_createdBy ev = JS.or (email user) (username user)
                ∧ Store.to_segment k r = pre
                ∧ Store.get k (store w') = Ok segment) as Hrest.
    { intros w2 reads Hs Hc Hreads. rewrite run_validateSegmentProject.
      cbv zeta. destruct (_ && _); [done|]. cbn.
      unfold Store.update. rewrite Hs, Hr. cbn. intros [= <-].
      exists input,
        (reads ++ [call (FeatureStrategiesStore_getStrategiesBySegment k)]).
      do 3 eexists. cbn. rewrite Hc, <- !app_assoc. split; [done|].
      split; [apply Forall_app; split; [done|by repeat constructor]|].
      repeat (split; [done|]).
      apply get_Ok. eexists. split; [apply lookup_insert_eq|done]. }
    destruct (decide _) as [Hne|Heq].
    + rewrite run_validateName. destruct (JS.not_string _); [done|].
      cbn [store w1 log]. destruct (Store.existsByName _ _); [done|].
      intros Hrun. eapply Hrest in Hrun; [| done | cbn; by rewrite <- app_assoc
                                          | by repeat constructor].
      destruct Hrun as (i & rd & ev & pre & seg & ? & ? & ? & ? & ? & ? & ? & ? & ?).
      exists i, rd, ev, pre, seg. subst pre. by repeat (split; [done|]).
    + intros Hrun. eapply Hrest in Hrun; [| done | done | by repeat constructor].
      destruct Hrun as (i & rd & ev & pre & seg & ? & ? & ? & ? & ? & ? & ? & ? & ?).
      exists i, rd, ev, pre, seg. subst pre. by repeat (split; [done|]).
  - intros k w'. rewrite run_delete.
    destruct (Store.get k (store w)) as [pre|] eqn:Hget; [|done].
    intros [= <-]. do 2 eexists. cbn. do 7 (split; [done|]).
    unfold Store.get. cbn. by rewrite lookup_delete_eq.
Qed.


(** ** Creating a segment *)

(** The count the service compares with [segmentValuesLimit] is the total
    number of values over all constraints, a constraint without values
    counting for none. *)
Lemma valuesCount_total (segment : Input.t) :
  SegmentService.valuesCount segment
  = sum_list_with (λ c, length (default [] (values c)))
      (Input.constraints segment).
Proof.
  unfold SegmentService.valuesCount.
  assert (∀ (l : list IConstraint) (acc : nat),
            foldl (λ acc length, acc + length)%nat acc
              ((λ c, match values c with
                     | Some vs => length vs
                     | None => 0%nat
                     end) <$> l)
            = (acc + sum_list_with (λ c, length (default [] (values c))) l)%nat)
    as Hacc.
  { induction l as [|c l IH]; intros acc; cbn; [lia|].
    rewrite IH. destruct (values c); cbn; lia. }
  by rewrite Hacc.
Qed.

Lemma not_string_true (s : string) : JS.not_string s = true ↔ s = EmptyString.
Proof. unfold JS.not_string. by destruct (String.eqb_spec s EmptyString). Qed.

(** C5. A [create] that fails has issued no write: the stores are as
    before and every request made was a read.  Malformed input fails
    with [ValidationError]; more constraint values in total than
    [segmentValuesLimit] fail with the limit error; an empty name fails
    with the empty-name error and a name some stored segment has with the
    duplicate-name error, checked in this order.  Otherwise the call
    returns the new segment, stored under an id no segment had, with the
    fields of the input, and no other row is touched. *)
Theorem create_checks_before_writing (config : IUnleashConfig) {Raw : Type}
    (segmentSchema : Raw → option Input.t) (raw : Raw) (user : User)
    (w : World) :
  let out := run (SegmentService.create config segmentSchema raw user) w in
  (∀ e, out.1 = Err e →
        store out.2 = store w
        ∧ ∃ reads, calls out.2 = calls w ++ reads
                   ∧ Forall (λ c, call_is_mutation c = false) reads)
  ∧ (segmentSchema raw = None → out.1 = Err ValidationError)
  ∧ (∀ input, segmentSchema raw = Some input →
       let n := Input.name input in
       let too_many :=
         segmentValuesLimit config
         < Z.of_nat (sum_list_with (λ c, length (default [] (values c)))
                       (Input.constraints input)) in
       let taken := ∃ seg, seg ∈ Store.getAll (store w) ∧ name seg = n in
       (too_many →
        out.1 = Err (ValuesLimitExceededError (segmentValuesLimit config)))
       ∧ (¬ too_many → n = EmptyString → out.1 = Err EmptyNameError)
       ∧ (¬ too_many → n ≠ EmptyString → taken → out.1 = Err DuplicateNameError)
       ∧ (¬ too_many → n ≠ EmptyString → ¬ taken →
          ∃ segment,
            out.1 = Ok segment
            ∧ Store.get (id segment) (store out.2) = Ok segment
            ∧ Store.rows (store w) !! id segment = None
            ∧ name segment = n
            ∧ description segment = Input.description input
            ∧ project segment = Input.project input
            ∧ constraints segment = Input.constraints input
            ∧ ∀ k, k ≠ id segment →
                   Store.rows (store out.2) !! k = Store.rows (store w) !! k)).
Proof.
  intros out. subst out. rewrite run_create.
  destruct (segmentSchema raw) as [input|].
  2: { cbn. split; [|by split]. intros e _. split; [done|].
       exists []. by rewrite app_nil_r. }
  rewrite valuesCount_total, run_validateName.
  set (total := sum_list_with _ _).
  destruct (Z.gtb_spec (Z.of_nat total) (segmentValuesLimit config))
    as [Hmany|Hfew].
  { cbn. split; [|split; [done|]].
    - intros e _. split; [done|]. exists []. by rewrite app_nil_r.
    - intros ? [= <-]. cbv zeta. fold total. repeat split; intros; lia || done. }
  destruct (JS.not_string (Input.name input)) eqn:Hempty.
  { apply not_string_true in Hempty. cbn. split; [|split; [done|]].
    - intros e _. split; [done|]. exists []. by rewrite app_nil_r.
    - intros ? [= <-]. cbv zeta. fold total. repeat split; intros; lia || done. }
  assert (Input.name input ≠ EmptyString) as Hname.
  { intros Hn. apply not_string_true in Hn. congruence. }
  destruct (Store.existsByName _ _) eqn:Htaken.
  { apply existsByName_true in Htaken. cbn. split; [|split; [done|]].
    - intros e _. split; [done|]. eexists. split; [done|].
      by repeat constructor.
    - intros ? [= <-]. cbv zeta. fold total. repeat split; intros; lia || done. }
  assert (¬ ∃ seg, seg ∈ Store.getAll (store w) ∧ name seg = Input.name input)
    as Hfree.
  { intros Hn. apply existsByName_true in Hn. congruence. }
  cbn. split; [done|]. split; [done|].
  intros ? [= <-]. cbv zeta. fold total.
  split; [lia|]. split; [done|]. split; [done|]. intros _ _ _.
  eexists. split; [done|]. cbn.
  split; [apply get_Ok; eexists; split; [apply lookup_insert_eq|done]|].
  split; [apply not_elem_of_dom, is_fresh|].
  do 4 (split; [done|]).
  intros k Hk. by rewrite lookup_insert_ne.
Qed.

(** ** Updating a segment *)

Lemma elem_of_Set_add (s : list string) (x y : string) :
  y ∈ JS.Set_add s x ↔ y ∈ s ∨ y = x.
Proof.
  unfold JS.Set_add. destruct (decide (x ∈ s)).
  - split; [by left|]. by intros [?| ->].
  - rewrite elem_of_app, list_elem_of_singleton. done.
Qed.

Lemma NoDup_Set_add (s : list string) (x : string) :
  NoDup s → NoDup (JS.Set_add s x).
Proof.
  intros Hs. unfold JS.Set_add. destruct (decide (x ∈ s)); [done|].
  apply NoDup_app. split; [done|]. split; [|apply NoDup_singleton].
  intros y Hy ->%list_elem_of_singleton. done.
Qed.

Lemma Set_new_spec (l : list string) :
  NoDup (JS.Set_new l) ∧ ∀ x, x ∈ JS.Set_new l ↔ x ∈ l.
Proof.
  unfold JS.Set_new.
  assert (∀ s, NoDup s →
               NoDup (foldl JS.Set_add s l)
               ∧ ∀ x, x ∈ foldl JS.Set_add s l ↔ x ∈ s ∨ x ∈ l) as Hfold.
  { induction l as [|y l IH]; intros s Hs; cbn.
    - split; [done|]. intros x. rewrite elem_of_nil. tauto.
    - destruct (IH (JS.Set_add s y) (NoDup_Set_add s y Hs)) as [Hnd Hin].
      split; [done|]. intros x.
      rewrite Hin, elem_of_Set_add, elem_of_cons. tauto. }
  destruct (Hfold [] (NoDup_nil_2)) as [Hnd Hin]. split; [done|].
  intros x. rewrite Hin, elem_of_nil. tauto.
Qed.

(** The service's test on the set of projects in use says what the
    project-scope rule says. *)
Lemma project_test_spec (candidate : option string) (projects : list string) :
  let projectsUsed := JS.Set_new projects in
  JS.truthy candidate
  && ((JS.Set_size projectsUsed >? 1)
      || ((JS.Set_size projectsUsed =? 1)
          && negb (JS.Set_has projectsUsed candidate))) = true
  ↔ violates_project_scope candidate projects.
Proof.
  intros used. destruct (Set_new_spec projects) as [Hnd Hin]. fold used in Hnd, Hin.
  unfold violates_project_scope, JS.Set_size, JS.Set_has.
  rewrite andb_true_iff, orb_true_iff, andb_true_iff, negb_true_iff.
  rewrite Z.gtb_lt, Z.eqb_eq.
  apply and_iff_compat_l.
  destruct used as [|p [|q rest]]; cbn [length].
  - split; [intros [?|[? _]]; lia|].
    intros [(p & q & Hp & _)|(p & Hp & _)]; apply Hin in Hp;
      by apply elem_of_nil in Hp.
  - assert (∀ x, x ∈ projects ↔ x = p) as Hp.
    { intros x. rewrite <- Hin. apply list_elem_of_singleton. }
    split.
    + intros [?|[_ Hhas]]; [lia|]. right. exists p.
      split; [by apply Hp|]. split; [intros q; apply Hp|].
      intros ->. rewrite bool_decide_eq_false in Hhas.
      apply Hhas, list_elem_of_singleton. done.
    + intros [(x & y & Hx & Hy & Hxy)|(x & Hx & _ & Hc)].
      * apply Hp in Hx, Hy. congruence.
      * right. split; [done|]. apply Hp in Hx as ->.
        destruct candidate as [c|]; [|done].
        apply bool_decide_eq_false. intros ->%list_elem_of_singleton. done.
  - split; [|intros _; left; lia]. intros _. left. exists p, q.
    split; [apply Hin; constructor|].
    split; [apply Hin; do 2 constructor|].
    apply NoDup_cons in Hnd as [Hp _]. intros ->. apply Hp. constructor.
Qed.

(** The result of [update] once its input is well-formed and within the
    values limit and the segment exists: the name check, when the name
    changes, and then the project check decide. *)
Lemma run_update_result (config : IUnleashConfig) {Raw : Type}
    (segmentSchema : Raw → option Input.t) (k : nat) (raw : Raw)
    (user : User) (w : World) (input : Input.t) (pre : ISegment) :
  segmentSchema raw = Some input →
  ¬ segmentValuesLimit config
    < Z.of_nat (sum_list_with (λ c, length (default [] (values c)))
                  (Input.constraints input)) →
  Store.get k (store w) = Ok pre →
  let n := Input.name input in
  let projects := projectId <$> Store.getStrategiesBySegment k (store w) in
  let checked := bool_decide (name pre ≠ n) in
  let out := run (SegmentService.update config segmentSchema k raw user) w in
  out.1 =
    (if checked && JS.not_string n then Err EmptyNameError
     else if checked && Store.existsByName n (store w)
          then Err DuplicateNameError
          else if JS.truthy (Input.project input)
             && ((JS.Set_size (JS.Set_new projects) >? 1)
                 || ((JS.Set_size (JS.Set_new projects) =? 1)
                     && negb (JS.Set_has (JS.Set_new projects)
                                (Input.project input))))
               then Err (InvalidProjectError (JS.Set_new projects))
               else Ok ())
  ∧ ∃ cs, calls out.2 = calls w ++ cs
          ∧ (if checked then True
             else Forall (λ c, call_is_existsByName c = false) cs).
Proof.
  intros Hv Hfew Hget n projects checked out. subst out.
  rewrite run_update, Hv, valuesCount_total.
  destruct (Z.gtb_spec (Z.of_nat (sum_list_with
                                    (λ c, length (default [] (values c)))
                                    (Input.constraints input)))
              (segmentValuesLimit config)) as [?|_]; [lia|].
  cbv zeta. rewrite Hget.
  pose proof (get_Ok k (store w) pre) as [Hrow _].
  destruct (Hrow Hget) as [r [Hr _]]. clear Hrow.
  assert (∀ (w2 : World) cs (P : Call → Prop),
            store w2 = store w → calls w2 = calls w ++ cs →
            Forall P cs →
            P (call (FeatureStrategiesStore_getStrategiesBySegment k)) →
            P (call (SegmentStore_update k input)) →
            (∀ ev, P (call (EventStore_store ev))) →
            let res :=
              match run (SegmentService.validateSegmentProject k input) w2
              with
              | (Ok _, w3) =>
                  match Store.update k input (store w3) with
                  | (Ok segment, s4) =>
                      (Ok (),
                       log w3
                         [call (SegmentStore_update k input);
                          call (EventStore_store
                                  (updated_event user pre segment))]
                         (Store.storeEvent
                            (updated_event user pre segment) s4))
                  | (Err e, s4) =>
                      (Err e, log w3 [call (SegmentStore_update k input)] s4)
                  end
              | (Err e, w3) => (Err e, w3)
              end in
            res.1 =
              (if JS.truthy (Input.project input)
             && ((JS.Set_size (JS.Set_new projects) >? 1)
                 || ((JS.Set_size (JS.Set_new projects) =? 1)
                     && negb (JS.Set_has (JS.Set_new projects)
                                (Input.project input))))
               then Err (InvalidProjectError (JS.Set_new projects))
               else Ok ())
            ∧ ∃ cs', calls res.2 = calls w ++ cs' ∧ Forall P cs') as Hrest.
  { intros w2 cs P Hs Hc Hcs P1 P2 P3. rewrite run_validateSegmentProject.
    cbv zeta. rewrite Hs. fold projects.
    destruct (_ && _) eqn:Ht.
    - cbn. split; [done|]. eexists. rewrite Hc, <- app_assoc. split; [done|].
      apply Forall_app. split; [done|]. by repeat constructor.
    - cbn. unfold Store.update. rewrite Hr. cbn.
      split; [done|]. eexists. rewrite Hc, <- !app_assoc. split; [done|].
      apply Forall_app. split; [done|]. by repeat constructor. }
  subst checked. case_decide as Hne.
  all: [> rewrite bool_decide_eq_true_2 by done
        | rewrite bool_decide_eq_false_2 by (intros HH; by apply HH)];
    cbn [andb].
  - rewrite run_validateName. fold n. destruct (JS.not_string n).
    { cbn. split; [done|]. eexists. by split. }
    cbn [store log]. destruct (Store.existsByName n (store w)).
    { cbn. split; [done|]. eexists. rewrite <- app_assoc. by split. }
    edestruct (Hrest (log (log w [call (SegmentStore_get k)] (store w))
                        [call (SegmentStore_existsByName n)] (store w))
                 [call (SegmentStore_get k);
                  call (SegmentStore_existsByName n)]
                 (λ _ : Call, True)) as [Hres [cs' [Hcs' _]]];
      [done | cbn; by rewrite <- app_assoc | by repeat constructor
      | done | done | done |].
    split; [exact Hres|]. by exists cs'.
  - edestruct (Hrest (log w [call (SegmentStore_get k)] (store w))
                 [call (SegmentStore_get k)]
                 (λ c, call_is_existsByName c = false))
      as [Hres [cs' [Hcs' Hall]]];
      [done | done | by repeat constructor | done | done | done |].
    split; [exact Hres|]. by exists cs'.
Qed.

(** The errors of the taxonomy that share the class [BadDataError] differ
    in their messages. *)
Lemma InvalidProjectError_distinct (ps : list string) :
  InvalidProjectError ps ≠ EmptyNameError
  ∧ InvalidProjectError ps ≠ DuplicateNameError
  ∧ InvalidProjectError ps ≠ ValidationError
  ∧ InvalidProjectError ps ≠ NotFoundError
  ∧ (∀ limit, InvalidProjectError ps ≠ ValuesLimitExceededError limit)
  ∧ (∀ limit, InvalidProjectError ps ≠ StrategyLimitExceededError limit).
Proof.
  repeat split; unfold not; intros;
    match goal with H : _ = _ |- _ => cbn in H; discriminate H end.
Qed.


(** C6. For an [update] whose input is well-formed and within the values
    limit, on an existing segment: when the candidate's name is the
    segment's own, the store is never asked whether the name is taken, and
    the update succeeds unless the project-scope rule is violated; when
    the name differs, an empty name fails with the empty-name error and a
    non-empty name that another stored segment has fails with the
    duplicate-name error. *)
Theorem update_name_check (config : IUnleashConfig) {Raw : Type}
    (segmentSchema : Raw → option Input.t) (k : nat) (raw : Raw)
    (user : User) (w : World) (input : Input.t) (pre : ISegment) :
  segmentSchema raw = Some input →
  ¬ segmentValuesLimit config
    < Z.of_nat (sum_list_with (λ c, length (default [] (values c)))
                  (Input.constraints input)) →
  Store.get k (store w) = Ok pre →
  let n := Input.name input in
  let projects := projectId <$> Store.getStrategiesBySegment k (store w) in
  let out := run (SegmentService.update config segmentSchema k raw user) w in
  (name pre = n →
   (∃ cs, calls out.2 = calls w ++ cs
          ∧ Forall (λ c, call_is_existsByName c = false) cs)
   ∧ (¬ violates_project_scope (Input.project input) projects →
      out.1 = Ok ()))
  ∧ (name pre ≠ n →
     (n = EmptyString → out.1 = Err EmptyNameError)
     ∧ (n ≠ EmptyString →
        (∃ other, other ∈ Store.getAll (store w) ∧ id other ≠ k
                  ∧ name other = n) →
        out.1 = Err DuplicateNameError)).
Proof.
  intros Hv Hfew Hget n projects out.
  destruct (run_update_result config segmentSchema k raw user w input pre
              Hv Hfew Hget) as [Hres [cs [Hcs Hall]]].
  fold n projects out in Hres, Hcs, Hall.
  pose proof (project_test_spec (Input.project input) projects) as Htest.
  cbv zeta in Htest.
  split.
  - intros Heq.
    rewrite bool_decide_eq_false_2 in Hres, Hall by (intros HH; by apply HH).
    cbv iota in Hall. split; [by exists cs|].
    intros Hno. rewrite Hres. cbn [andb].
    destruct (JS.truthy _ && _) eqn:Ht; [|done].
    exfalso. by apply Hno, Htest.
  - intros Hne. rewrite bool_decide_eq_true_2 in Hres by done.
    cbn [andb] in Hres. split.
    + intros Hn. apply not_string_true in Hn. by rewrite Hres, Hn.
    + intros Hn (other & Hother & _ & Hname). rewrite Hres.
      assert (JS.not_string n = false) as ->
        by (apply not_true_iff_false; by rewrite not_string_true).
      assert (Store.existsByName n (store w) = true) as ->; [|done].
      apply existsByName_true. by exists other.
Qed.

(** ** Batches *)

Lemma advance_length (b : Batch) (i : nat) :
  length (tasks (advance b i)) = length (tasks b).
Proof.
  unfold advance. destruct (tasks b !! i) as [t|]; [|done].
  destruct (resume t (world b)). cbn. apply length_insert.
Qed.

(** What holds of a batch and is kept by every step of every member holds
    when the batch has settled. *)
Lemma settle_all_invariant (I : Batch → Prop) :
  (∀ b i, I b → I (advance b i)) →
  ∀ schedule b, I b → I (settle_all schedule b).
Proof.
  intros Hstep.
  assert (∀ l b, I b → I (foldl advance b l)) as Hsteps.
  { induction l as [|i l IH]; intros b Hb; cbn; [done|]. by apply IH, Hstep. }
  assert (∀ b i, I b → I (finish b i)) as Hfinish.
  { intros b i Hb. unfold finish. destruct (tasks b !! i); [|done].
    by apply Hsteps. }
  assert (∀ l b, I b → I (foldl finish b l)) as Hall.
  { induction l as [|i l IH]; intros b Hb; cbn; [done|]. by apply IH, Hfinish. }
  intros schedule b Hb. unfold settle_all. by apply Hall, Hsteps.
Qed.

Lemma resume_settled (t : Async unit) (w : World) :
  settled t = true → resume t w = (t, w).
Proof. by destruct t. Qed.

(** A member that has settled stays as it is. *)
Lemma advance_keeps_settled (b : Batch) (i j : nat) (t : Async unit) :
  tasks b !! j = Some t → settled t = true →
  tasks (advance b i) !! j = Some t.
Proof.
  intros Hj Ht. unfold advance.
  destruct (tasks b !! i) as [ti|] eqn:Hi; [|done].
  destruct (decide (i = j)) as [->|Hij].
  - rewrite Hj in Hi. injection Hi as <-. rewrite resume_settled by done.
    cbn. by rewrite list_insert_id.
  - destruct (resume ti (world b)). cbn. by rewrite list_lookup_insert_ne.
Qed.

Lemma finish_settles (t : Async unit) (b : Batch) (i : nat) :
  tasks b !! i = Some t →
  ∃ t', tasks (foldl advance b (replicate (remaining t (world b)) i)) !! i
        = Some t'
        ∧ settled t' = true.
Proof.
  revert b. induction t as [a|e|B op k IH]; intros b Hi; cbn.
  - by exists (Return a).
  - by exists (Throw e).
  - assert (i < length (tasks b))%nat as Hlt by (by eapply lookup_lt_Some).
    destruct (perform op (world b)) as [[x|e] w'] eqn:Hop; cbn.
    + assert (tasks (advance b i) !! i = Some (k x)
              ∧ world (advance b i) = w') as [Hi' Hw'].
      { unfold advance. rewrite Hi. cbn. rewrite Hop. cbn.
        by rewrite list_lookup_insert_eq. }
      destruct (IH x (advance b i) Hi') as [t' Ht']. rewrite Hw' in Ht'.
      by exists t'.
    + exists (Throw e). split; [|done].
      unfold advance. rewrite Hi. cbn. rewrite Hop. cbn.
      by rewrite list_lookup_insert_eq.
Qed.

(** When [Promise.all] is done, every member has returned or thrown. *)
Lemma settle_all_settled (schedule : list nat) (b : Batch) :
  Forall (λ t, settled t = true) (tasks (settle_all schedule b)).
Proof.
  pose (done_at := λ (b : Batch) (j : nat),
          ∃ t, tasks b !! j = Some t ∧ settled t = true).
  assert (∀ l b j, done_at b j → done_at (foldl advance b l) j) as Hkeep.
  { induction l as [|i l IH]; intros b' j Hj; cbn; [done|].
    apply IH. destruct Hj as [t [Hj Ht]]. exists t.
    split; [by apply advance_keeps_settled|done]. }
  assert (∀ l b, length (tasks (foldl advance b l)) = length (tasks b))
    as Hlen.
  { induction l as [|i l IH]; intros b'; cbn; [done|].
    by rewrite IH, advance_length. }
  assert (∀ b j, done_at b j → ∀ i, done_at (finish b i) j) as Hkeep'.
  { intros b' j Hj i. unfold finish. destruct (tasks b' !! i); [|done].
    by apply Hkeep. }
  assert (∀ b i, length (tasks (finish b i)) = length (tasks b)) as Hlen'.
  { intros b' i. unfold finish. destruct (tasks b' !! i); [|done].
    apply Hlen. }
  assert (∀ l b,
            length (tasks (foldl finish b l)) = length (tasks b)
            ∧ ∀ j, (j ∈ l ∧ (j < length (tasks b))%nat) ∨ done_at b j →
                   done_at (foldl finish b l) j) as Hall.
  { induction l as [|i l IH]; intros b'; cbn.
    - split; [done|]. intros j [[Hj _]|Hj]; [by apply elem_of_nil in Hj|done].
    - destruct (IH (finish b' i)) as [Hl Hd]. rewrite Hl, Hlen'.
      split; [done|]. intros j Hj. apply Hd.
      destruct Hj as [[Hj Hlt]|Hj]; [|right; by apply Hkeep'].
      apply elem_of_cons in Hj as [->|Hj]; [|left; by rewrite Hlen'].
      right. unfold finish.
      destruct (tasks b' !! i) as [t|] eqn:Hi.
      + by apply finish_settles.
      + apply lookup_ge_None in Hi. lia. }
  unfold settle_all. apply Forall_lookup_2. intros j t Hj.
  destruct (Hall (seq 0 (length (tasks b))) (foldl advance b schedule))
    as [Hl Hd].
  destruct (Hd j) as [t' [Hj' Ht']].
  { left. rewrite Hlen. apply lookup_lt_Some in Hj.
    rewrite Hl, Hlen in Hj. split; [|done]. apply elem_of_seq. lia. }
  congruence.
Qed.

Lemma Promise_all_nil (schedule : list nat) (w : World) :
  Promise_all schedule [] w = (Ok (), w).
Proof.
  unfold Promise_all, settle_all, start. cbn.
  assert (∀ l b, tasks b = [] → foldl advance b l = b) as Hidle.
  { induction l as [|i l IH]; intros b Hb; cbn; [done|].
    unfold advance at 2. rewrite Hb. cbn. by apply IH. }
  by rewrite Hidle.
Qed.

Lemma Forall2_fmap_self {A B} (P : A → B → Prop) (f : A → B) (l : list A) :
  (∀ x, x ∈ l → P x (f x)) → Forall2 P l (f <$> l).
Proof.
  induction l as [|x l IH]; intros HP; cbn; constructor.
  - apply HP. constructor.
  - apply IH. intros y Hy. apply HP. by constructor.
Qed.

Lemma start_not_rejected (ts : list (Async unit)) (w : World) :
  Forall (λ t, rejection t = None) ts → rejected (start ts w) = None.
Proof.
  intros Hts. unfold start. cbn.
  destruct (list_find _ ts) as [[i t]|] eqn:Hfind; [|done].
  apply list_find_Some in Hfind as (Hi & [e He] & _).
  eapply Forall_lookup_1 in Hts; [|done]. congruence.
Qed.

Lemma store_eq (s1 s2 : Store.t) :
  Store.rows s1 = Store.rows s2 →
  Store.links s1 = Store.links s2 →
  Store.strategies s1 = Store.strategies s2 →
  Store.events s1 = Store.events s2 →
  Store.clock s1 = Store.clock s2 →
  s1 = s2.
Proof. destruct s1, s2. cbn. by intros -> -> -> -> ->. Qed.

(** *** The batch of removals *)

Lemma elem_of_links_removeFromStrategy (l : nat * string) (r : nat)
    (sid : string) (s : Store.t) :
  l ∈ Store.links (Store.removeFromStrategy r sid s)
  ↔ l ∈ Store.links s ∧ l ≠ (r, sid).
Proof. cbn. rewrite elem_of_difference, elem_of_singleton. done. Qed.

Lemma resume_removeFromStrategy (r : nat) (sid : string) (w : World) :
  resume (SegmentService.removeFromStrategy r sid) w
  = (Return (),
     log w [call (SegmentStore_removeFromStrategy r sid)]
       (Store.removeFromStrategy r sid (store w))).
Proof. done. Qed.

(** Whatever the order in which the stores serve them, the removals all
    succeed, each is served once, and together they take away exactly the
    links of the strategy to the segments named. *)
Lemma Promise_all_removeFromStrategy (schedule : list nat) (sid : string)
    (rs : list nat) (w : World) :
  let out :=
    Promise_all schedule
      ((λ r, SegmentService.removeFromStrategy r sid) <$> rs) w in
  out.1 = Ok ()
  ∧ store out.2
    = Store.with_links (λ ls, ls ∖ list_to_set ((λ r, (r, sid)) <$> rs))
        (store w)
  ∧ ∃ cs, calls out.2 = calls w ++ cs
          ∧ Forall (λ c, ∃ r, r ∈ rs
                         ∧ c = call (SegmentStore_removeFromStrategy r sid)) cs
          ∧ ∀ r, r ∈ rs → call (SegmentStore_removeFromStrategy r sid) ∈ cs.
Proof.
  pose (I := λ b : Batch,
          rejected b = None
          ∧ Store.rows (store (world b)) = Store.rows (store w)
          ∧ Store.strategies (store (world b)) = Store.strategies (store w)
          ∧ Store.events (store (world b)) = Store.events (store w)
          ∧ Store.clock (store (world b)) = Store.clock (store w)
          ∧ Store.links (store (world b)) ⊆ Store.links (store w)
          ∧ (∀ l, l ∈ Store.links (store w) →
                  l ∉ Store.links (store (world b)) →
                  ∃ r, r ∈ rs ∧ l = (r, sid))
          ∧ ∃ cs,
              calls (world b) = calls w ++ cs
              ∧ Forall (λ c, ∃ r, r ∈ rs
                             ∧ c = call (SegmentStore_removeFromStrategy r sid))
                  cs
              ∧ Forall2
                  (λ r t,
                     t = SegmentService.removeFromStrategy r sid
                     ∨ (t = Return ()
                        ∧ call (SegmentStore_removeFromStrategy r sid) ∈ cs
                        ∧ (r, sid) ∉ Store.links (store (world b))))
                  rs (tasks b)).
  set (ts := (λ r, SegmentService.removeFromStrategy r sid) <$> rs).
  assert (I (settle_all schedule (start ts w))) as Hend.
  { apply settle_all_invariant.
    - clear schedule. intros b i (Hrej & Hrows & Hstr & Hev & Hclk & Hsub & Hgone
                                  & cs & Hcs & HQ & Hts).
      unfold advance. destruct (tasks b !! i) as [t|] eqn:Hi.
      2: { repeat (split; [done|]). by exists cs. }
      destruct (Forall2_lookup_r _ _ _ _ _ Hts Hi) as (r & Hr & Ht).
      assert (r ∈ rs) as Hin by (by eapply list_elem_of_lookup_2).
      destruct Ht as [->|(-> & Hcall & Hout)].
      + rewrite resume_removeFromStrategy. unfold I.
        cbn [tasks rejected world store calls log rejection].
        rewrite Hrej. do 5 (split; [done|]).
        split.
        { intros l Hl. apply elem_of_links_removeFromStrategy in Hl as [Hl _].
          by apply Hsub. }
        split.
        { intros l Hl Hnot.
          destruct (decide (l = (r, sid))) as [->|Hne]; [by exists r|].
          apply Hgone; [done|]. intros Hl'. apply Hnot.
          by apply elem_of_links_removeFromStrategy. }
        exists (cs ++ [call (SegmentStore_removeFromStrategy r sid)]).
        rewrite Hcs, <- app_assoc. split; [done|].
        split. { apply Forall_app. split; [done|]. repeat constructor. by exists r. }
        rewrite <- (list_insert_id rs i r) by done.
        apply Forall2_insert.
        * eapply Forall2_impl; [done|].
          intros r' t' [->|(-> & Hcall' & Hout')].
          -- by left.
          -- right. split; [done|]. split.
             ++ apply elem_of_app. by left.
             ++ intros [Hl _]%elem_of_links_removeFromStrategy. done.
        * right. split; [done|]. split.
          -- apply elem_of_app. right. constructor.
          -- intros [_ Hl]%elem_of_links_removeFromStrategy. done.
      + unfold I. cbn. rewrite Hrej, list_insert_id by done.
        repeat (split; [done|]). by exists cs.
    - unfold I.
      split. { apply start_not_rejected, Forall_fmap, Forall_forall. done. }
      cbn. do 5 (split; [done|]). split; [done|].
      exists []. rewrite app_nil_r. split; [done|]. split; [done|].
      apply Forall2_fmap_self. intros r _. by left. }
  pose proof (settle_all_settled schedule (start ts w)) as Hdone.
  cbv zeta. unfold Promise_all, outcome. fold ts.
  destruct Hend as (Hrej & Hrows & Hstr & Hev & Hclk & Hsub & Hgone
                    & cs & Hcs & HQ & Hts).
  set (b := settle_all schedule (start ts w)) in *.
  rewrite Hrej. cbn.
  assert (∀ r, r ∈ rs →
               call (SegmentStore_removeFromStrategy r sid) ∈ cs
               ∧ (r, sid) ∉ Store.links (store (world b))) as Hall.
  { intros r Hr. apply list_elem_of_lookup in Hr as [i Hi].
    destruct (Forall2_lookup_l _ _ _ _ _ Hts Hi) as (t & Hti & Ht).
    eapply Forall_lookup_1 in Hdone; [|done].
    destruct Ht as [->|(_ & ? & ?)]; [done|done]. }
  split; [done|]. split.
  - apply store_eq; cbn; [done| |done..].
    apply set_eq. intros l. rewrite elem_of_difference, elem_of_list_to_set.
    rewrite list_elem_of_fmap. split.
    + intros Hl. split; [by apply Hsub|]. intros (r & -> & Hr).
      by apply (Hall r Hr).
    + intros [Hl Hnot].
      destruct (decide (l ∈ Store.links (store (world b)))) as [|Hout];
        [done|].
      exfalso. destruct (Hgone l Hl Hout) as (r & Hr & ->).
      apply Hnot. by exists r.
  - exists cs. split; [done|]. split; [done|]. intros r Hr. by apply Hall.
Qed.

(** *** The batch of additions *)

Lemma resume_addToStrategy (config : IUnleashConfig) (a : nat) (sid : string)
    (w : World) :
  resume (SegmentService.addToStrategy config a sid) w
  = (if Z.of_nat (length (Store.getByStrategy sid (store w)))
        >=? strategySegmentsLimit config
     then Throw (StrategyLimitExceededError (strategySegmentsLimit config))
     else await (SegmentStore_addToStrategy a sid),
     log w [call (SegmentStore_getByStrategy sid)] (store w)).
Proof. cbn. by destruct (_ >=? _). Qed.

Lemma resume_await_addToStrategy (a : nat) (sid : string) (w : World) :
  resume (await (SegmentStore_addToStrategy a sid)) w
  = (Return (),
     log w [call (SegmentStore_addToStrategy a sid)]
       (Store.addToStrategy a sid (store w))).
Proof. done. Qed.

Lemma pending_insert (ts : list (Async unit)) (i : nat) (t t' : Async unit) :
  ts !! i = Some t →
  (pending (<[i:=t']> ts) + (if settled t then 0 else 1)
   = pending ts + (if settled t' then 0 else 1))%nat.
Proof.
  unfold pending. revert i.
  induction ts as [|x ts IH]; intros [|i] Hi; try done; cbn in Hi.
  - injection Hi as ->.
    change (<[0%nat:=t']> (t :: ts)) with (t' :: ts). rewrite !filter_cons.
    destruct (settled t), (settled t'); repeat case_decide; cbn; try done; lia.
  - change (<[S i:=t']> (x :: ts)) with (x :: <[i:=t']> ts).
    rewrite !filter_cons. specialize (IH i Hi).
    case_decide; cbn; lia.
Qed.

Lemma pending_fmap_unsettled {A} (f : A → Async unit) (l : list A) :
  (∀ x, settled (f x) = false) → pending (f <$> l) = length l.
Proof.
  intros Hf. unfold pending. induction l as [|x l IH]; [done|].
  rewrite fmap_cons, filter_cons, decide_True by apply Hf. cbn. by rewrite IH.
Qed.

Lemma filter_ext_in {A} (P Q : A → Prop) `{!∀ x, Decision (P x)}
    `{!∀ x, Decision (Q x)} (l : list A) :
  (∀ x, x ∈ l → P x ↔ Q x) → filter P l = filter Q l.
Proof.
  induction l as [|x l IH]; intros HPQ; [done|].
  rewrite !filter_cons, IH by (intros y Hy; apply HPQ; by constructor).
  destruct (decide (P x)) as [HP|HP].
  - by rewrite decide_True by (apply HPQ; [constructor|done]).
  - rewrite decide_False; [done|]. intros HQ. apply HP, HPQ; [constructor|done].
Qed.

(** One more link to a strategy is at most one more segment on it. *)
Lemma count_after_addToStrategy (a : nat) (sid : string) (s : Store.t) :
  (length (Store.getByStrategy sid (Store.addToStrategy a sid s))
   ≤ S (length (Store.getByStrategy sid s)))%nat.
Proof.
  unfold Store.getByStrategy.
  change (Store.getAll (Store.addToStrategy a sid s)) with (Store.getAll s).
  change (Store.links (Store.addToStrategy a sid s))
    with ({[(a, sid)]} ∪ Store.links s).
  pose proof (NoDup_getAll_ids s) as Hnd. revert Hnd.
  generalize (Store.getAll s) as l. generalize (Store.links s) as L.
  intros L l. induction l as [|x l IH]; intros Hnd; [cbn; lia|].
  cbn in Hnd. apply NoDup_cons in Hnd as [Hx Hnd]. specialize (IH Hnd).
  rewrite !filter_cons.
  destruct (decide (id x = a)) as [Hxa|Hxa].
  - assert (filter (λ seg, (id seg, sid) ∈ {[(a, sid)]} ∪ L) l
            = filter (λ seg, (id seg, sid) ∈ L) l) as ->.
    { apply filter_ext_in. intros y Hy.
      rewrite elem_of_union, elem_of_singleton. split; [|by right].
      intros [[= Hya]|?]; [|done]. exfalso. apply Hx.
      apply list_elem_of_fmap. exists y. split; [congruence|done]. }
    repeat case_decide; cbn; lia.
  - destruct (decide ((id x, sid) ∈ L)) as [HL|HL].
    + rewrite decide_True by (apply elem_of_union; by right). cbn. lia.
    + rewrite decide_False; [lia|].
      rewrite elem_of_union, elem_of_singleton. intros [[= ?]|?]; done.
Qed.

Lemma advance_eq (b : Batch) (i : nat) (t : Async unit) :
  tasks b !! i = Some t →
  advance b i
  = {| tasks := <[i := (resume t (world b)).1]> (tasks b);
       rejected := match rejected b with
                   | Some e => Some e
                   | None => rejection (resume t (world b)).1
                   end;
       world := (resume t (world b)).2 |}.
Proof. unfold advance. intros ->. by destruct (resume t (world b)). Qed.

(** Whatever the order in which the stores serve the limit checks and
    the writes of a batch of additions: only links of the strategy to the
    segments named are created and nothing else changes; the batch can
    fail with the limit error only; when it succeeds every link named is
    there; and it does succeed when the strategy has room for all of
    them. *)
Lemma Promise_all_addToStrategy (config : IUnleashConfig)
    (schedule : list nat) (sid : string) (adds : list nat) (w : World) :
  let limit := strategySegmentsLimit config in
  let out :=
    Promise_all schedule
      ((λ a, SegmentService.addToStrategy config a sid) <$> adds) w in
  Store.rows (store out.2) = Store.rows (store w)
  ∧ Store.strategies (store out.2) = Store.strategies (store w)
  ∧ Store.events (store out.2) = Store.events (store w)
  ∧ Store.clock (store out.2) = Store.clock (store w)
  ∧ Store.links (store w) ⊆ Store.links (store out.2)
  ∧ (∀ l, l ∈ Store.links (store out.2) →
          l ∈ Store.links (store w) ∨ ∃ a, a ∈ adds ∧ l = (a, sid))
  ∧ (∃ cs, calls out.2 = calls w ++ cs
           ∧ Forall (λ c, c = call (SegmentStore_getByStrategy sid)
                          ∨ ∃ a, a ∈ adds
                                 ∧ c = call (SegmentStore_addToStrategy a sid))
               cs)
  ∧ (out.1 = Ok () ∨ out.1 = Err (StrategyLimitExceededError limit))
  ∧ (out.1 = Ok () → ∀ a, a ∈ adds → (a, sid) ∈ Store.links (store out.2))
  ∧ (Z.of_nat (length (Store.getByStrategy sid (store w)))
     + Z.of_nat (length adds) ≤ limit → out.1 = Ok ()).
Proof.
  intros limit.
  pose (stage := λ (b : Batch) (a : nat) (t : Async unit),
          t = SegmentService.addToStrategy config a sid
          ∨ t = await (SegmentStore_addToStrategy a sid)
          ∨ (t = Return () ∧ (a, sid) ∈ Store.links (store (world b)))
          ∨ (t = Throw (StrategyLimitExceededError limit)
             ∧ rejected b ≠ None)).
  pose (I := λ b : Batch,
          Store.rows (store (world b)) = Store.rows (store w)
          ∧ Store.strategies (store (world b)) = Store.strategies (store w)
          ∧ Store.events (store (world b)) = Store.events (store w)
          ∧ Store.clock (store (world b)) = Store.clock (store w)
          ∧ Store.links (store w) ⊆ Store.links (store (world b))
          ∧ (∀ l, l ∈ Store.links (store (world b)) →
                  l ∈ Store.links (store w) ∨ ∃ a, a ∈ adds ∧ l = (a, sid))
          ∧ (∃ cs, calls (world b) = calls w ++ cs
                   ∧ Forall
                       (λ c, c = call (SegmentStore_getByStrategy sid)
                             ∨ ∃ a, a ∈ adds
                                    ∧ c = call
                                            (SegmentStore_addToStrategy a sid))
                       cs)
          ∧ (rejected b = None
             ∨ rejected b = Some (StrategyLimitExceededError limit))
          ∧ Forall2 (stage b) adds (tasks b)
          ∧ (Z.of_nat (length (Store.getByStrategy sid (store w)))
             + Z.of_nat (length adds) ≤ limit →
             rejected b = None
             ∧ Z.of_nat (length (Store.getByStrategy sid (store (world b))))
               + Z.of_nat (pending (tasks b)) ≤ limit)).
  set (ts := (λ a, SegmentService.addToStrategy config a sid) <$> adds).
  assert (I (settle_all schedule (start ts w))) as Hend.
  { apply settle_all_invariant.
    - clear schedule.
      intros b i (Hrows & Hstr & Hev & Hclk & Hsub & Hup & (cs & Hcs & HQ)
                  & Hrej & Hts & Hroom).
      destruct (tasks b !! i) as [t|] eqn:Hi.
      2: { unfold advance. rewrite Hi. repeat (split; [done|]).
           split; [by exists cs|]. done. }
      destruct (Forall2_lookup_r _ _ _ _ _ Hts Hi) as (a & Ha & Ht).
      assert (a ∈ adds) as Hin by (by eapply list_elem_of_lookup_2).
      rewrite (advance_eq b i t Hi).
      destruct Ht as [->|[->|[[-> Hlink]|[-> Hsome]]]].
      + (* the limit check of member [i] is served *)
        rewrite resume_addToStrategy. unfold I.
        cbn [tasks rejected world store calls log fst snd].
        do 6 (split; [done|]).
        split.
        { exists (cs ++ [call (SegmentStore_getByStrategy sid)]).
          rewrite Hcs, <- app_assoc. split; [done|].
          apply Forall_app. split; [done|]. apply Forall_singleton. by left. }
        pose proof (pending_insert (tasks b) i _
                      (await (SegmentStore_addToStrategy a sid)) Hi) as Hp.
        cbn in Hp.
        destruct (Z.geb_spec
                    (Z.of_nat (length (Store.getByStrategy sid
                                         (store (world b)))))
                    (strategySegmentsLimit config)) as [Hfull|Hfree].
        * assert (match rejected b with
                  | Some e => Some e
                  | None => rejection
                              (Throw (StrategyLimitExceededError
                                        (strategySegmentsLimit config)))
                  end = Some (StrategyLimitExceededError limit)) as ->.
          { by destruct Hrej as [->| ->]. }
          split; [by right|]. split.
          -- rewrite <- (list_insert_id adds i a) by done.
             apply Forall2_insert.
             ++ eapply Forall2_impl; [done|].
                intros a' t' [->|[->|[[-> ?]|[-> ?]]]]; unfold stage; cbn;
                  [by left | by right; left | by right; right; left
                  | by right; right; right].
             ++ right. right. right. by split.
          -- intros Hfit. destruct (Hroom Hfit) as [_ Hle].
             pose proof (pending_insert (tasks b) i _ (Return ()) Hi) as Hp'.
             cbn in Hp'. unfold limit in *. lia.
        * assert (match rejected b with
                  | Some e => Some e
                  | None => rejection (await (SegmentStore_addToStrategy a sid))
                  end = rejected b) as -> by (by destruct (rejected b)).
          split; [done|]. split.
          -- rewrite <- (list_insert_id adds i a) by done.
             apply Forall2_insert.
             ++ eapply Forall2_impl; [done|].
                intros a' t' [->|[->|[[-> ?]|[-> ?]]]]; unfold stage; cbn;
                  [by left | by right; left | by right; right; left
                  | by right; right; right].
             ++ right. by left.
          -- intros Hfit. destruct (Hroom Hfit) as [Hnone Hle].
             split; [done|]. unfold limit in *. lia.
      + (* the write of member [i] is served *)
        rewrite resume_await_addToStrategy. unfold I.
        cbn [tasks rejected world store calls log fst snd rejection].
        assert (match rejected b with
                | Some e => Some e
                | None => None
                end = rejected b) as -> by (by destruct (rejected b)).
        do 4 (split; [done|]).
        split. { intros l Hl. cbn. apply elem_of_union. right. by apply Hsub. }
        split.
        { intros l. cbn. rewrite elem_of_union, elem_of_singleton.
          intros [->|Hl]; [right; by exists a|by apply Hup]. }
        split.
        { exists (cs ++ [call (SegmentStore_addToStrategy a sid)]).
          rewrite Hcs, <- app_assoc. split; [done|].
          apply Forall_app. split; [done|]. apply Forall_singleton.
          right. by exists a. }
        split; [done|]. split.
        * rewrite <- (list_insert_id adds i a) by done.
          apply Forall2_insert.
          -- eapply Forall2_impl; [done|].
             intros a' t' [->|[->|[[-> ?]|[-> ?]]]]; unfold stage; cbn;
               [by left | by right; left | | by right; right; right].
             right. right. left. split; [done|]. apply elem_of_union. by right.
          -- right. right. left. split; [done|]. cbn.
             apply elem_of_union. left. by apply elem_of_singleton.
        * intros Hfit. destruct (Hroom Hfit) as [Hnone Hle].
          split; [done|].
          pose proof (pending_insert (tasks b) i _ (Return ()) Hi) as Hp.
          cbn in Hp.
          pose proof (count_after_addToStrategy a sid (store (world b))).
          unfold limit in *. lia.
      + (* member [i] has returned *)
        unfold I. cbn [tasks rejected world resume fst snd rejection].
        rewrite list_insert_id by done.
        assert (match rejected b with
                | Some e => Some e
                | None => None
                end = rejected b) as -> by (by destruct (rejected b)).
        repeat (split; [done|]). split; [by exists cs|]. done.
      + (* member [i] has thrown *)
        unfold I. cbn [tasks rejected world resume fst snd rejection].
        rewrite list_insert_id by done.
        assert (match rejected b with
                | Some e => Some e
                | None => Some (StrategyLimitExceededError limit)
                end = rejected b) as -> by (by destruct (rejected b)).
        repeat (split; [done|]). split; [by exists cs|]. done.
    - unfold I.
      assert (rejected (start ts w) = None) as Hnone.
      { apply start_not_rejected, Forall_fmap, Forall_forall. done. }
      rewrite Hnone. cbn [start tasks world].
      do 5 (split; [done|]). split; [intros l Hl; by left|].
      split. { exists []. by rewrite app_nil_r. }
      split; [by left|]. split.
      + apply Forall2_fmap_self. intros a _. by left.
      + intros Hfit. split; [done|]. unfold ts.
        by rewrite pending_fmap_unsettled. }
  pose proof (settle_all_settled schedule (start ts w)) as Hdone.
  cbv zeta. unfold Promise_all, outcome. fold ts.
  destruct Hend as (Hrows & Hstr & Hev & Hclk & Hsub & Hup & Hcalls
                    & Hrej & Hts & Hroom).
  set (b := settle_all schedule (start ts w)) in *.
  cbn [fst snd]. do 7 (split; [done|]).
  split. { destruct Hrej as [->| ->]; [by left|by right]. }
  split.
  - intros Hok a Ha.
    assert (rejected b = None) as Hnone by (by destruct (rejected b)).
    apply list_elem_of_lookup in Ha as [i Hi].
    destruct (Forall2_lookup_l _ _ _ _ _ Hts Hi) as (t & Hti & Ht).
    eapply Forall_lookup_1 in Hdone; [|done].
    by destruct Ht as [->|[->|[[-> ?]|[-> ?]]]].
  - intros Hfit. destruct (Hroom Hfit) as [-> _]. done.
Qed.

(** ** Reconciling the segments of a strategy *)

Lemma run_getByStrategy (sid : string) (w : World) :
  run (SegmentService.getByStrategy sid) w
  = (Ok (Store.getByStrategy sid (store w)),
     log w [call (SegmentStore_getByStrategy sid)] (store w)).
Proof. done. Qed.

Lemma updateStrategySegments_eq (config : IUnleashConfig)
    (removing adding : list nat) (sid : string) (ids : list nat) (w : World) :
  SegmentService.updateStrategySegments config removing adding sid ids w
  = if Z.of_nat (length ids) >? strategySegmentsLimit config
    then (Err (StrategyLimitExceededError (strategySegmentsLimit config)), w)
    else
      let current := id <$> Store.getByStrategy sid (store w) in
      match Promise_all removing
              ((λ r, SegmentService.removeFromStrategy r sid)
                 <$> filter (λ x, x ∉ ids) current)
              (log w [call (SegmentStore_getByStrategy sid)] (store w)) with
      | (Ok _, w2) =>
          Promise_all adding
            ((λ a, SegmentService.addToStrategy config a sid)
               <$> filter (λ x, x ∉ current) ids) w2
      | (Err e, w2) => (Err e, w2)
      end.
Proof.
  unfold SegmentService.updateStrategySegments.
  destruct (_ >? _); [done|].
  unfold mbind, Process_bind. by rewrite run_getByStrategy.
Qed.

Lemma filter_none {A} (P : A → Prop) `{!∀ x, Decision (P x)} (l : list A) :
  (∀ x, x ∈ l → ¬ P x) → filter P l = [].
Proof.
  induction l as [|x l IH]; intros HP; [done|].
  rewrite filter_cons, decide_False by (apply HP; constructor).
  apply IH. intros y Hy. apply HP. by constructor.
Qed.

(** C9. When the ids passed name exactly the segments linked to the
    strategy, [updateStrategySegments] makes no request that writes: the
    stores, and so the links of every strategy, are as before the
    call. *)
Theorem updateStrategySegments_same_set (config : IUnleashConfig)
    (removing adding : list nat) (strategyId : string) (segmentIds : list nat)
    (w : World) :
  (∀ x, x ∈ segmentIds
        ↔ x ∈ id <$> Store.getByStrategy strategyId (store w)) →
  let out :=
    SegmentService.updateStrategySegments config removing adding strategyId
      segmentIds w in
  store out.2 = store w
  ∧ (∃ cs, calls out.2 = calls w ++ cs
           ∧ Forall (λ c, call_is_mutation c = false) cs)
  ∧ (Z.of_nat (length segmentIds) ≤ strategySegmentsLimit config →
     out.1 = Ok ()
     ∧ calls out.2
       = calls w ++ [call (SegmentStore_getByStrategy strategyId)]).
Proof.
  intros Hsame out. subst out. rewrite updateStrategySegments_eq.
  destruct (Z.gtb_spec (Z.of_nat (length segmentIds))
              (strategySegmentsLimit config)) as [Hover|Hfit].
  { cbn. split; [done|]. split; [|lia]. exists []. by rewrite app_nil_r. }
  cbv zeta.
  rewrite (filter_none (λ x, x ∉ segmentIds))
    by (intros x Hx Hnot; by apply Hnot, Hsame).
  rewrite (filter_none (λ x, x ∉ id <$> _))
    by (intros x Hx Hnot; by apply Hnot, Hsame).
  cbn [fmap list_fmap]. rewrite !Promise_all_nil. cbn.
  split; [done|]. split; [|done].
  eexists. split; [done|]. by repeat constructor.
Qed.

(** What a successful [updateStrategySegments] leaves behind, link by
    link, for any schedules. *)
Lemma updateStrategySegments_links (config : IUnleashConfig)
    (removing adding : list nat) (sid : string) (ids : list nat)
    (w w' : World) :
  SegmentService.updateStrategySegments config removing adding sid ids w
    = (Ok (), w') →
  let current := id <$> Store.getByStrategy sid (store w) in
  Store.rows (store w') = Store.rows (store w)
  ∧ ∀ l, l ∈ Store.links (store w')
         ↔ (l ∈ Store.links (store w)
            ∧ ¬ (∃ r, r ∈ current ∧ (r ∉ ids) ∧ l = (r, sid)))
           ∨ (∃ a, a ∈ ids ∧ (a ∉ current) ∧ l = (a, sid)).
Proof.
  rewrite updateStrategySegments_eq. destruct (_ >? _); [done|]. cbv zeta.
  set (current := id <$> Store.getByStrategy sid (store w)).
  set (w1 := log w _ _).
  destruct (Promise_all_removeFromStrategy removing sid
              (filter (λ x, x ∉ ids) current) w1) as (_ & Hs2 & _).
  destruct (Promise_all removing _ w1) as [[[]|e] w2]; [|done].
  cbn [fst snd] in Hs2. intros Hadd.
  destruct (Promise_all_addToStrategy config adding sid
              (filter (λ x, x ∉ current) ids) w2)
    as (Hrows & _ & _ & _ & Hsub & Hup & _ & _ & Hall & _).
  rewrite Hadd in Hrows, Hsub, Hup, Hall. cbn [fst snd] in *.
  specialize (Hall eq_refl).
  assert (∀ l, l ∈ Store.links (store w2)
               ↔ l ∈ Store.links (store w)
                 ∧ ¬ (∃ r, r ∈ current ∧ (r ∉ ids) ∧ l = (r, sid))) as Hl2.
  { intros l. rewrite Hs2. cbn.
    rewrite elem_of_difference, elem_of_list_to_set, list_elem_of_fmap.
    apply and_iff_compat_l. split.
    - intros Hnot (r & Hr & Hri & ->). apply Hnot. exists r.
      split; [done|]. by apply list_elem_of_filter.
    - intros Hnot (r & -> & [Hri Hr]%list_elem_of_filter). apply Hnot.
      by exists r. }
  split; [by rewrite Hrows, Hs2|]. intros l. split.
  - intros Hl. destruct (Hup l Hl) as [Hl'|(a & Ha & ->)].
    + left. by apply Hl2.
    + right. apply list_elem_of_filter in Ha as [? ?]. by exists a.
  - intros [Hl|(a & Ha & Hac & ->)].
    + by apply Hsub, Hl2.
    + apply Hall. by apply list_elem_of_filter.
Qed.

(** C1. When [updateStrategySegments(strategyId, ids)] succeeds, for ids
    of stored segments and whatever the order in which the stores served
    the two batches, the segments [getByStrategy(strategyId)] returns
    afterwards are those named in [ids]: the same ids, each once.  (A
    call that succeeds has at most [strategySegmentsLimit] ids.) *)
Theorem updateStrategySegments_sets_links (config : IUnleashConfig)
    (removing adding : list nat) (strategyId : string) (segmentIds : list nat)
    (w w' : World) :
  (∀ x, x ∈ segmentIds → is_Some (Store.rows (store w) !! x)) →
  SegmentService.updateStrategySegments config removing adding strategyId
    segmentIds w = (Ok (), w') →
  Z.of_nat (length segmentIds) ≤ strategySegmentsLimit config
  ∧ NoDup (id <$> Store.getByStrategy strategyId (store w'))
  ∧ ∀ x, x ∈ id <$> Store.getByStrategy strategyId (store w')
         ↔ x ∈ segmentIds.
Proof.
  intros Hstored Hrun. split.
  { rewrite updateStrategySegments_eq in Hrun.
    destruct (Z.gtb_spec (Z.of_nat (length segmentIds))
                (strategySegmentsLimit config)); [done|lia]. }
  split; [apply NoDup_getByStrategy_ids|].
  destruct (updateStrategySegments_links _ _ _ _ _ _ _ Hrun) as [Hrows Hlinks].
  intros x. rewrite elem_of_getByStrategy_ids, Hrows, Hlinks. split.
  - intros [Hx [[Hl Hkept]|(a & Ha & _ & [= ->])]]; [|done].
    destruct (decide (x ∈ segmentIds)) as [|Hout]; [done|].
    exfalso. apply Hkept. exists x. split; [|done].
    apply elem_of_getByStrategy_ids. by split.
  - intros Hx. split; [by apply Hstored|].
    destruct (decide (x ∈ id <$> Store.getByStrategy strategyId (store w)))
      as [Hcur|Hnew].
    + left. apply elem_of_getByStrategy_ids in Hcur as [_ Hl].
      split; [done|]. by intros (r & _ & Hr & [= <-]).
    + right. by exists x.
Qed.



(** ** Adding a pair that is already linked *)

(** C8, as the code has it.  Adding a pair that is already linked leaves
    the stores as they are: no second link, and the same number of
    segments on the strategy.  The limit check of the repeated call is
    the one of any other call, on the number of segments linked, the
    pair's own among them: the call is rejected with the limit error
    exactly when that number is at least [strategySegmentsLimit]. *)
Theorem addToStrategy_again (config : IUnleashConfig) (segmentId : nat)
    (strategyId : string) (w : World) :
  (segmentId, strategyId) ∈ Store.links (store w) →
  let limit := strategySegmentsLimit config in
  let count := Z.of_nat (length (Store.getByStrategy strategyId (store w))) in
  let out := run (SegmentService.addToStrategy config segmentId strategyId) w in
  store out.2 = store w
  ∧ length (Store.getByStrategy strategyId (store out.2))
    = length (Store.getByStrategy strategyId (store w))
  ∧ (out.1 = Err (StrategyLimitExceededError limit) ↔ limit ≤ count)
  ∧ (count < limit → out.1 = Ok ()).
Proof.
  intros Hlinked limit count out.
  assert (store out.2 = store w) as Hstore.
  { subst out. rewrite run_addToStrategy. destruct (_ >=? _); [done|].
    cbn [snd store log]. apply store_eq; cbn; try done.
    apply set_eq. intros l. rewrite elem_of_union, elem_of_singleton.
    split; [by intros [->|?]|by right]. }
  split; [done|]. split; [by rewrite Hstore|].
  subst out. rewrite run_addToStrategy. fold limit count.
  destruct (Z.geb_spec count limit) as [Hfull|Hfree]; cbn.
  - split; [by split|lia].
  - split; [split; [done|lia]|done].
Qed.

(** C8, as the claim has it, fails: with a limit of one and the pair
    linked by a first call, the strategy holds one segment, which is
    within the limit, and yet the second call for the same pair is
    rejected with the limit error. *)
Lemma repeated_addToStrategy_rejected_at_limit :
  let config := {| strategySegmentsLimit := 1; segmentValuesLimit := 3 |} in
  let first := run (SegmentService.addToStrategy config 2 "strat-3")
                 Sample.world in
  let second := run (SegmentService.addToStrategy config 2 "strat-3")
                  first.2 in
  first.1 = Ok ()
  ∧ (2%nat, "strat-3") ∈ Store.links (store first.2)
  ∧ id <$> Store.getByStrategy "strat-3" (store first.2) = [2%nat]
  ∧ second.1 = Err (StrategyLimitExceededError 1)
  ∧ ¬ (Z.of_nat (length (Store.getByStrategy "strat-3" (store first.2)))
       ≤ strategySegmentsLimit config → second.1 = Ok ()).
Proof.
  cbv zeta. split; [by vm_compute|]. split; [by vm_compute|].
  split; [by vm_compute|]. split; [by vm_compute|].
  intros Hok. assert (Z.of_nat 1 ≤ 1) as Hle by lia.
  specialize (Hok Hle). vm_compute in Hok. discriminate Hok.
Qed.

(** ** The statements at work in the example world *)

(** Replacing segment 0 by segment 2 on a strategy at its limit, the
    writes of the two batches served in the order scheduled. *)
Lemma updateStrategySegments_sets_links_witness :
  let after :=
    (SegmentService.updateStrategySegments Sample.config [0; 0]%nat
       [0; 0]%nat "strat-1" [2; 1]%nat Sample.world).2 in
  Z.of_nat (length [2; 1]%nat) ≤ strategySegmentsLimit Sample.config
  ∧ NoDup (id <$> Store.getByStrategy "strat-1" (store after))
  ∧ ∀ x, x ∈ id <$> Store.getByStrategy "strat-1" (store after)
         ↔ x ∈ [2; 1]%nat.
Proof.
  cbv zeta.
  apply (updateStrategySegments_sets_links Sample.config [0; 0]%nat
           [0; 0]%nat "strat-1" [2; 1]%nat Sample.world).
  - intros x Hx. apply elem_of_cons in Hx as [->|Hx]; [vm_compute; eauto|].
    apply list_elem_of_singleton in Hx as ->. vm_compute. eauto.
  - by vm_compute.
Defined.


Lemma addToStrategy_limit_witness :
  (run (SegmentService.addToStrategy Sample.config 2 "strat-1")
     Sample.world).1 = Err (StrategyLimitExceededError 2)
  ∧ (run (SegmentService.addToStrategy Sample.config 2 "strat-3")
       Sample.world).1 = Ok ().
Proof.
  split.
  - apply (addToStrategy_limit Sample.config 2 "strat-1" Sample.world).
    vm_compute. by intros [=].
  - apply (addToStrategy_limit Sample.config 2 "strat-3" Sample.world).
    by vm_compute.
Defined.


Lemma create_checks_before_writing_witness :
  (run (SegmentService.create Sample.config Sample.segmentSchema
          (Some (Sample.input "too-many" None ["a"; "b"; "c"; "d"]))
          Sample.admin) Sample.world).1
  = Err (ValuesLimitExceededError 3)
  ∧ (run (SegmentService.create Sample.config Sample.segmentSchema
            (Some (Sample.input "staff" None ["a"])) Sample.admin)
       Sample.world).1
    = Err DuplicateNameError.
Proof.
  split.
  - refine (proj1 (proj2 (proj2
              (create_checks_before_writing Sample.config
                 Sample.segmentSchema
                 (Some (Sample.input "too-many" None ["a"; "b"; "c"; "d"]))
                 Sample.admin Sample.world)) _ eq_refl) _).
    by vm_compute.
  - refine (proj1 (proj2 (proj2 (proj2 (proj2
              (create_checks_before_writing Sample.config
                 Sample.segmentSchema
                 (Some (Sample.input "staff" None ["a"]))
                 Sample.admin Sample.world)) _ eq_refl))) _ _ _).
    + vm_compute. by intros [=].
    + done.
    + exists (Store.to_segment 2 (Sample.row "staff")).
      split; [|done]. apply elem_of_getAll. by eexists.
Defined.

(** Segment 1 keeps its name: the name is not looked up and the update
    goes through.  Renamed to the name of segment 2, it is refused. *)
Lemma update_name_check_witness :
  (run (SegmentService.update Sample.config Sample.segmentSchema 1
          (Some (Sample.input "beta-users" None ["de"])) Sample.admin)
     Sample.world).1 = Ok ()
  ∧ (run (SegmentService.update Sample.config Sample.segmentSchema 1
            (Some (Sample.input "staff" None ["de"])) Sample.admin)
       Sample.world).1 = Err DuplicateNameError.
Proof.
  split.
  - refine (proj2 (proj1
              (update_name_check Sample.config Sample.segmentSchema 1
                 (Some (Sample.input "beta-users" None ["de"]))
                 Sample.admin Sample.world
                 (Sample.input "beta-users" None ["de"])
                 (Store.to_segment 1 (Sample.row "beta-users"))
                 eq_refl _ eq_refl) eq_refl) _).
    + vm_compute. by intros [=].
    + by intros [? _].
  - refine (proj2 (proj2
              (update_name_check Sample.config Sample.segmentSchema 1
                 (Some (Sample.input "staff" None ["de"]))
                 Sample.admin Sample.world
                 (Sample.input "staff" None ["de"])
                 (Store.to_segment 1 (Sample.row "beta-users"))
                 eq_refl _ eq_refl) _) _ _).
    + vm_compute. by intros [=].
    + done.
    + done.
    + exists (Store.to_segment 2 (Sample.row "staff")).
      split; [apply elem_of_getAll; by eexists|done].
Defined.

Lemma mutation_emits_one_event_witness :
  ∃ ev pre,
    calls (run (SegmentService.delete 2 Sample.admin) Sample.world).2
    = [call (SegmentStore_get 2); call (SegmentStore_delete 2);
       call (EventStore_store ev)]
    ∧ Store.events
        (store (run (SegmentService.delete 2 Sample.admin) Sample.world).2)
      = [ev]
    ∧ type ev = SEGMENT_DELETED ∧ data ev = pre ∧ preData ev = None
    ∧ event_createdBy ev = Some "admin"
    ∧ Store.get 2 Sample.segments = Ok pre
    ∧ Store.get 2
        (store (run (SegmentService.delete 2 Sample.admin) Sample.world).2)
      = Err NotFoundError.
Proof.
  apply (proj1 (proj2 (proj2
           (mutation_emits_one_event Sample.config Sample.segmentSchema
              Sample.admin Sample.world))) 2%nat).
  by vm_compute.
Defined.

Lemma addToStrategy_again_witness :
  let out := run (SegmentService.addToStrategy Sample.config 0 "strat-1")
               Sample.world in
  (0%nat, "strat-1") ∈ Store.links Sample.segments
  ∧ store out.2 = Sample.segments
  ∧ out.1 = Err (StrategyLimitExceededError 2).
Proof.
  cbv zeta.
  assert ((0%nat, "strat-1") ∈ Store.links (store Sample.world)) as Hlinked
    by (by vm_compute).
  split; [exact Hlinked|].
  split.
  - apply (addToStrategy_again Sample.config 0 "strat-1" Sample.world
             Hlinked).
  - apply (addToStrategy_again Sample.config 0 "strat-1" Sample.world
             Hlinked).
    vm_compute. by intros [=].
Defined.

Lemma updateStrategySegments_same_set_witness :
  let out :=
    SegmentService.updateStrategySegments Sample.config [] [] "strat-1"
      [0; 1]%nat Sample.world in
  store out.2 = Sample.segments
  ∧ out.1 = Ok ()
  ∧ calls out.2 = [call (SegmentStore_getByStrategy "strat-1")].
Proof.
  cbv zeta.
  assert (∀ x, x ∈ [0; 1]%nat
               ↔ x ∈ id <$> Store.getByStrategy "strat-1"
                              (store Sample.world)) as Hsame.
  { intros x.
    change (id <$> Store.getByStrategy "strat-1" (store Sample.world))
      with [1; 0]%nat.
    rewrite !elem_of_cons, !elem_of_nil. tauto. }
  split.
  - apply (updateStrategySegments_same_set Sample.config [] [] "strat-1"
             [0; 1]%nat Sample.world Hsame).
  - apply (updateStrategySegments_same_set Sample.config [] [] "strat-1"
             [0; 1]%nat Sample.world Hsame).
    vm_compute. by intros [=].
Defined.


(** * Further properties of the service *)

(** ** Updating and deleting *)

(** The stores after the checks of [update]: what the name check and the
    project check leave behind when they pass. *)
Lemma update_checks_read_only (k : nat) (input : Input.t) (pre : ISegment)
    (w : World) :
  let w1 := log w [call (SegmentStore_get k)] (store w) in
  let named :=
    if decide (name pre ≠ Input.name input)
    then run (SegmentService.validateName (Input.name input)) w1
    else (Ok (), w1) in
  (store named.2 = store w
   ∧ ∃ cs, calls named.2 = calls w ++ cs
           ∧ Forall (λ c, call_is_mutation c = false) cs)
  ∧ ∀ w2,
      store w2 = store w →
      (∃ cs, calls w2 = calls w ++ cs
             ∧ Forall (λ c, call_is_mutation c = false) cs) →
      let scoped :=
        run (SegmentService.validateSegmentProject k input) w2 in
      store scoped.2 = store w
      ∧ ∃ cs, calls scoped.2 = calls w ++ cs
              ∧ Forall (λ c, call_is_mutation c = false) cs.
Proof.
  intros w1 named. split.
  - subst named. case_decide.
    + rewrite run_validateName. destruct (JS.not_string _).
      { cbn. split; [done|]. eexists. split; [done|]. by repeat constructor. }
      destruct (Store.existsByName _ _); cbn; (split; [done|]);
        eexists; rewrite <- app_assoc; (split; [done|]);
        by repeat constructor.
    + cbn. split; [done|]. eexists. split; [done|]. by repeat constructor.
  - intros w2 Hs (cs & Hcs & Hreads) scoped. subst scoped.
    rewrite run_validateSegmentProject. cbv zeta.
    destruct (_ && _); cbn; (split; [done|]);
      exists (cs ++ [call (FeatureStrategiesStore_getStrategiesBySegment k)]);
      rewrite Hcs, <- app_assoc; (split; [done|]);
      (apply Forall_app; split; [done|by repeat constructor]).
Qed.


(** X2. The checks of [update] come in the order of the code: input the
    schema refuses fails with [ValidationError] and too many values with
    the limit error, both before any request, whether or not the segment
    exists; only then is the segment loaded, and a missing one fails with
    [NotFoundError] after that single read. *)
Theorem update_check_order (config : IUnleashConfig) {Raw : Type}
    (segmentSchema : Raw → option Input.t) (k : nat) (raw : Raw)
    (user : User) (w : World) :
  let out := run (SegmentService.update config segmentSchema k raw user) w in
  (segmentSchema raw = None → out = (Err ValidationError, w))
  ∧ ∀ input, segmentSchema raw = Some input →
      let total :=
        sum_list_with (λ c, length (default [] (values c)))
          (Input.constraints input) in
      (segmentValuesLimit config < Z.of_nat total →
       out = (Err (ValuesLimitExceededError (segmentValuesLimit config)), w))
      ∧ (Z.of_nat total ≤ segmentValuesLimit config →
         Store.rows (store w) !! k = None →
         out = (Err NotFoundError,
                log w [call (SegmentStore_get k)] (store w))).
Proof.
  intros out. subst out. rewrite run_update. split.
  - by intros ->.
  - intros input ->. rewrite valuesCount_total. cbv zeta.
    destruct (Z.gtb_spec
                (Z.of_nat (sum_list_with (λ c, length (default [] (values c)))
                             (Input.constraints input)))
                (segmentValuesLimit config)) as [Hmany|Hfew].
    + split; [done|lia].
    + split; [lia|]. intros _ Hnone. unfold Store.get. by rewrite Hnone.
Qed.

(** X3. A successful [update] replaces the caller-supplied fields of the
    one row and nothing else: the row keeps its creator and creation
    time, every other row, every link and the strategies are as
    before. *)
Theorem update_replaces_one_row (config : IUnleashConfig) {Raw : Type}
    (segmentSchema : Raw → option Input.t) (k : nat) (raw : Raw)
    (user : User) (w w' : World) :
  run (SegmentService.update config segmentSchema k raw user) w
    = (Ok (), w') →
  ∃ input r,
    segmentSchema raw = Some input
    ∧ Store.rows (store w) !! k = Some r
    ∧ Store.rows (store w')
      = <[k := {| Store.row_input := input;
                  Store.row_createdBy := Store.row_createdBy r;
                  Store.row_createdAt := Store.row_createdAt r |}]>
          (Store.rows (store w))
    ∧ Store.links (store w') = Store.links (store w)
    ∧ Store.strategies (store w') = Store.strategies (store w)
    ∧ Store.clock (store w') = Store.clock (store w).
Proof.
  rewrite run_update.
  destruct (segmentSchema raw) as [input|]; [|done].
  destruct (_ >? _); [done|].
  cbv zeta. destruct (Store.get k (store w)) as [pre|e'] eqn:Hget; [|done].
  destruct (update_checks_read_only k input pre w) as [Hnamed Hscoped].
  cbv zeta in Hnamed, Hscoped.
  destruct (if decide _ then _ else _) as [[[]|e1] w2]; [|done].
  cbn [fst snd] in Hnamed. destruct Hnamed as [Hs2 Hc2].
  specialize (Hscoped w2 Hs2 Hc2).
  destruct (run (SegmentService.validateSegmentProject k input) w2)
    as [[[]|e2] w3]; [|done].
  cbn [fst snd] in Hscoped. destruct Hscoped as [Hs3 _].
  apply get_Ok in Hget as (r & Hr & _).
  unfold Store.update. rewrite Hs3, Hr. cbn. intros [= <-].
  exists input, r. by cbn.
Qed.

(** X4. [delete] loads before it deletes.  For a missing id it fails with
    [NotFoundError] after that one read: nothing is deleted and no event
    is stored.  For a stored segment it succeeds: the row is gone, and
    with it the segment's links to every strategy; the other rows and
    the links of the other segments are as before. *)
Theorem delete_cascades (k : nat) (user : User) (w : World) :
  let out := run (SegmentService.delete k user) w in
  (Store.rows (store w) !! k = None →
   out = (Err NotFoundError, log w [call (SegmentStore_get k)] (store w)))
  ∧ (is_Some (Store.rows (store w) !! k) →
     out.1 = Ok ()
     ∧ Store.rows (store out.2) = base.delete k (Store.rows (store w))
     ∧ (∀ x sid, (x, sid) ∈ Store.links (store out.2)
                 ↔ (x, sid) ∈ Store.links (store w) ∧ x ≠ k)
     ∧ (∀ sid, k ∉ id <$> Store.getByStrategy sid (store out.2))
     ∧ (∀ sid x, x ≠ k →
          x ∈ id <$> Store.getByStrategy sid (store out.2)
          ↔ x ∈ id <$> Store.getByStrategy sid (store w))).
Proof.
  intros out. subst out. rewrite run_delete. unfold Store.get. split.
  - by intros ->.
  - intros [r Hr]. rewrite Hr. cbn [fst snd store log].
    assert (∀ x sid,
              (x, sid) ∈ Store.links
                           (Store.storeEvent
                              (deleted_event user (Store.to_segment k r))
                              (Store.delete k (store w)))
              ↔ (x, sid) ∈ Store.links (store w) ∧ x ≠ k) as Hlinks.
    { intros x sid. cbn. rewrite elem_of_filter. cbn. tauto. }
    split; [done|]. split; [done|]. split; [done|]. split.
    + intros sid [Hrow _]%elem_of_getByStrategy_ids. cbn in Hrow.
      rewrite lookup_delete_eq in Hrow. by destruct Hrow.
    + intros sid x Hx. rewrite !elem_of_getByStrategy_ids, Hlinks. cbn.
      rewrite lookup_delete_ne by done. tauto.
Qed.

(** X5. Deleting is not repeatable: after a successful [delete], a second
    [delete] of the same id, by any actor, fails with [NotFoundError] and
    stores no second event. *)
Theorem delete_twice_not_found (k : nat) (user user' : User) (w w1 : World) :
  run (SegmentService.delete k user) w = (Ok (), w1) →
  let again := run (SegmentService.delete k user') w1 in
  again.1 = Err NotFoundError
  ∧ store again.2 = store w1
  ∧ length (Store.events (store again.2))
    = S (length (Store.events (store w))).
Proof.
  rewrite run_delete.
  destruct (Store.get k (store w)) as [pre|e] eqn:Hget; [|done].
  intros [= <-] again. subst again. rewrite run_delete. cbn [store log].
  assert (Store.get k
            (Store.storeEvent (deleted_event user pre)
               (Store.delete k (store w))) = Err NotFoundError) as ->.
  { unfold Store.get. cbn. by rewrite lookup_delete_eq. }
  cbn [fst snd store log]. split; [done|]. split; [done|].
  cbn [Store.storeEvent Store.with_events Store.events Store.delete
       Store.with_links Store.with_rows].
  rewrite length_app. cbn. lia.
Qed.

(** ** Names *)

(** X6. [validateName] never writes.  An empty name is refused before
    the store is asked; any other name costs one [existsByName] read and
    is refused exactly when some stored segment has it. *)
Theorem validateName_reads_only (n : string) (w : World) :
  let out := run (SegmentService.validateName n) w in
  store out.2 = store w
  ∧ (n = EmptyString → out = (Err EmptyNameError, w))
  ∧ (n ≠ EmptyString →
     calls out.2 = calls w ++ [call (SegmentStore_existsByName n)]
     ∧ (out.1 = Err DuplicateNameError
        ↔ ∃ seg, seg ∈ Store.getAll (store w) ∧ name seg = n)
     ∧ (out.1 = Ok ()
        ↔ ¬ ∃ seg, seg ∈ Store.getAll (store w) ∧ name seg = n)).
Proof.
  intros out. subst out. rewrite run_validateName.
  destruct (JS.not_string n) eqn:Hempty.
  - apply not_string_true in Hempty. by cbn.
  - assert (n ≠ EmptyString) as Hn
      by (intros Hn; apply not_string_true in Hn; congruence).
    rewrite <- existsByName_true.
    destruct (Store.existsByName n (store w)); cbn.
    + split; [done|]. split; [done|]. intros _. split; [done|].
      split; [done|]. split; [done|]. by intros Hno.
    + split; [done|]. split; [done|]. intros _. split; [done|].
      split; [done|]. split; [by intros _ ?|done].
Qed.

(** X7. Names stay unique through [create]: once a [create] has
    succeeded, a later [create] under the same name is refused with the
    duplicate-name error, whoever asks and whatever else its input holds,
    provided that input is well-formed and within the values limit. *)
Theorem create_same_name_twice (config : IUnleashConfig) {Raw : Type}
    (segmentSchema : Raw → option Input.t) (raw raw' : Raw)
    (user user' : User) (w w1 : World) (segment : ISegment)
    (input' : Input.t) :
  run (SegmentService.create config segmentSchema raw user) w
    = (Ok segment, w1) →
  segmentSchema raw' = Some input' →
  Input.name input' = name segment →
  Z.of_nat (sum_list_with (λ c, length (default [] (values c)))
              (Input.constraints input'))
  ≤ segmentValuesLimit config →
  (run (SegmentService.create config segmentSchema raw' user') w1).1
  = Err DuplicateNameError.
Proof.
  rewrite run_create.
  destruct (segmentSchema raw) as [input|]; [|done].
  destruct (_ >? _); [done|]. rewrite run_validateName.
  destruct (JS.not_string (Input.name input)) eqn:Hempty; [done|].
  destruct (Store.existsByName _ _); [done|].
  cbn. intros Hrun.
  assert (JS.not_string (name segment) = false
          ∧ Store.existsByName (name segment) (store w1) = true)
    as [Hnonempty Htaken].
  { injection Hrun as <- <-. split; [exact Hempty|].
    apply existsByName_true. eexists. split; [|done].
    apply elem_of_getAll. cbn. eexists. split; [apply lookup_insert_eq|done]. }
  clear Hrun. intros Hv' Hname Hfew.
  rewrite run_create, Hv', valuesCount_total.
  destruct (Z.gtb_spec
              (Z.of_nat (sum_list_with (λ c, length (default [] (values c)))
                           (Input.constraints input')))
              (segmentValuesLimit config)) as [?|_]; [lia|].
  by rewrite run_validateName, Hname, Hnonempty, Htaken.
Qed.

(** ** Single links *)

Lemma getByStrategy_other_add (a : nat) (sid sid' : string) (s : Store.t) :
  sid' ≠ sid →
  Store.getByStrategy sid' (Store.addToStrategy a sid s)
  = Store.getByStrategy sid' s.
Proof.
  intros Hne. unfold Store.getByStrategy. apply list_filter_iff. intros seg.
  cbn. rewrite elem_of_union, elem_of_singleton. split; [|by right].
  intros [[= _ ?]|?]; done.
Qed.


(** X8. One [addToStrategy] keeps every strategy within the limit: after
    the call, whether it succeeded or not, no strategy has more segments
    than it had before or than [strategySegmentsLimit], whichever is
    larger; so strategies that were within the limit still are. *)
Theorem single_add_keeps_strategies_within_limit (config : IUnleashConfig)
    (segmentId : nat) (strategyId : string) (w : World) (sid : string) :
  let limit := strategySegmentsLimit config in
  let count := λ (s : Store.t),
                 Z.of_nat (length (Store.getByStrategy sid s)) in
  let after :=
    store (run (SegmentService.addToStrategy config segmentId strategyId)
             w).2 in
  count after ≤ Z.max (count (store w)) limit.
Proof.
  intros limit count after. subst after count. cbv beta.
  rewrite run_addToStrategy. fold limit.
  destruct (Z.geb_spec
              (Z.of_nat (length (Store.getByStrategy strategyId (store w))))
              limit) as [Hfull|Hfree]; cbn [snd store log]; [lia|].
  destruct (decide (sid = strategyId)) as [->|Hne].
  - pose proof (count_after_addToStrategy segmentId strategyId (store w)).
    lia.
  - rewrite getByStrategy_other_add by done. lia.
Qed.


(** X10. Adding and then removing undoes the addition: when the pair was
    not linked and [addToStrategy] succeeds, a [removeFromStrategy] of
    the same pair brings the stores back to what they were. *)
Theorem add_then_remove_restores (config : IUnleashConfig) (segmentId : nat)
    (strategyId : string) (w w1 : World) :
  (segmentId, strategyId) ∉ Store.links (store w) →
  run (SegmentService.addToStrategy config segmentId strategyId) w
    = (Ok (), w1) →
  let out := run (SegmentService.removeFromStrategy segmentId strategyId) w1 in
  out.1 = Ok () ∧ store out.2 = store w.
Proof.
  intros Hnew. rewrite run_addToStrategy. destruct (_ >=? _); [done|].
  intros [= <-]. cbn. split; [done|].
  apply store_eq; try done. apply set_eq. intros l. cbn.
  rewrite elem_of_difference, elem_of_union, elem_of_singleton.
  split; [by intros [[->|?] ?]|]. intros Hl. split; [by right|].
  by intros ->.
Qed.

(** ** Reconciliation as a whole *)



(** The ids on the strategy after a successful reconciliation are among
    the ids passed; they are all of them when these name stored
    segments. *)
Lemma reconciled_ids (config : IUnleashConfig) (removing adding : list nat)
    (sid : string) (ids : list nat) (w w' : World) :
  SegmentService.updateStrategySegments config removing adding sid ids w
    = (Ok (), w') →
  (∀ x, x ∈ id <$> Store.getByStrategy sid (store w') → x ∈ ids)
  ∧ ((∀ x, x ∈ ids → is_Some (Store.rows (store w) !! x)) →
     ∀ x, x ∈ ids → x ∈ id <$> Store.getByStrategy sid (store w')).
Proof.
  intros Hrun.
  destruct (updateStrategySegments_links _ _ _ _ _ _ _ Hrun) as [Hrows Hlinks].
  split.
  - intros x. rewrite elem_of_getByStrategy_ids, Hrows, Hlinks.
    intros [Hx [[Hl Hkept]|(a & Ha & _ & [= ->])]]; [|done].
    destruct (decide (x ∈ ids)) as [|Hout]; [done|].
    exfalso. apply Hkept. exists x. split; [|done].
    apply elem_of_getByStrategy_ids. by split.
  - intros Hstored x Hx.
    rewrite elem_of_getByStrategy_ids, Hrows, Hlinks.
    split; [by apply Hstored|].
    destruct (decide (x ∈ id <$> Store.getByStrategy sid (store w)))
      as [Hcur|Hnew].
    + left. apply elem_of_getByStrategy_ids in Hcur as [_ Hl].
      split; [done|]. by intros (r & _ & Hr & [= <-]).
    + right. by exists x.
Qed.

(** X12. A successful [updateStrategySegments] leaves the strategy within
    the limit, whatever the order in which its batches were served and
    however many segments the strategy had before. *)
Theorem reconcile_ends_within_limit (config : IUnleashConfig)
    (removing adding : list nat) (strategyId : string) (segmentIds : list nat)
    (w w' : World) :
  SegmentService.updateStrategySegments config removing adding strategyId
    segmentIds w = (Ok (), w') →
  Z.of_nat (length (Store.getByStrategy strategyId (store w')))
  ≤ strategySegmentsLimit config.
Proof.
  intros Hrun. destruct (reconciled_ids _ _ _ _ _ _ _ Hrun) as [Hsub _].
  assert (length (id <$> Store.getByStrategy strategyId (store w'))
          ≤ length segmentIds)%nat as Hlen.
  { apply submseteq_length, NoDup_submseteq;
      [apply NoDup_getByStrategy_ids|done]. }
  rewrite length_fmap in Hlen.
  rewrite updateStrategySegments_eq in Hrun.
  destruct (Z.gtb_spec (Z.of_nat (length segmentIds))
              (strategySegmentsLimit config)); [done|lia].
Qed.

(** X13. Reconciling is repeatable: after a successful
    [updateStrategySegments] for ids of stored segments, the same call
    again, under any schedules, succeeds with a single read and writes
    nothing. *)
Theorem reconcile_twice_writes_nothing (config : IUnleashConfig)
    (removing adding removing' adding' : list nat) (strategyId : string)
    (segmentIds : list nat) (w w1 : World) :
  (∀ x, x ∈ segmentIds → is_Some (Store.rows (store w) !! x)) →
  SegmentService.updateStrategySegments config removing adding strategyId
    segmentIds w = (Ok (), w1) →
  SegmentService.updateStrategySegments config removing' adding' strategyId
    segmentIds w1
  = (Ok (), log w1 [call (SegmentStore_getByStrategy strategyId)] (store w1)).
Proof.
  intros Hstored Hrun.
  destruct (reconciled_ids _ _ _ _ _ _ _ Hrun) as [Hsub Hall].
  specialize (Hall Hstored).
  assert (Z.of_nat (length segmentIds) ≤ strategySegmentsLimit config) as Hfit.
  { rewrite updateStrategySegments_eq in Hrun.
    destruct (Z.gtb_spec (Z.of_nat (length segmentIds))
                (strategySegmentsLimit config)); [done|lia]. }
  rewrite updateStrategySegments_eq.
  destruct (Z.gtb_spec (Z.of_nat (length segmentIds))
              (strategySegmentsLimit config)); [lia|].
  cbv zeta.
  rewrite (filter_none (λ x, x ∉ segmentIds))
    by (intros x Hx Hnot; by apply Hnot, Hsub).
  rewrite (filter_none (λ x, x ∉ id <$> _))
    by (intros x Hx Hnot; by apply Hnot, Hall).
  cbn [fmap list_fmap]. by rewrite !Promise_all_nil.
Qed.

(** ** Cloning the segments of a strategy *)

Lemma cloneStrategySegments_eq (config : IUnleashConfig) (adding : list nat)
    (source target : string) (w : World) :
  SegmentService.cloneStrategySegments config adding source target w
  = Promise_all adding
      ((λ a, SegmentService.addToStrategy config a target)
         <$> (id <$> Store.getByStrategy source (store w)))
      (log w [call (SegmentStore_getByStrategy source)] (store w)).
Proof.
  unfold SegmentService.cloneStrategySegments, mbind, Process_bind.
  rewrite run_getByStrategy. by rewrite <- list_fmap_compose.
Qed.

Lemma settle_all_app (pre rest : list nat) (b : Batch) :
  settle_all (pre ++ rest) b = settle_all rest (foldl advance b pre).
Proof.
  unfold settle_all. rewrite foldl_app. f_equal. f_equal.
  induction pre as [|i pre IH] in b |- *; [done|].
  cbn. by rewrite <- (IH (advance b i)), advance_length.
Qed.

(** When the stores serve the limit check of every member before any
    write, every check sees the strategy as it was. *)
Lemma checks_served_first (config : IUnleashConfig) (sid : string)
    (adds : list nat) (w : World) :
  Z.of_nat (length (Store.getByStrategy sid (store w)))
  < strategySegmentsLimit config →
  let b :=
    foldl advance
      (start ((λ a, SegmentService.addToStrategy config a sid) <$> adds) w)
      (seq 0 (length adds)) in
  store (world b) = store w
  ∧ rejected b = None
  ∧ Forall2 (λ a t, t = await (SegmentStore_addToStrategy a sid))
      adds (tasks b).
Proof.
  intros Hfree.
  set (ts := (λ a, SegmentService.addToStrategy config a sid) <$> adds).
  assert (∀ j, (j ≤ length adds)%nat →
               let b := foldl advance (start ts w) (seq 0 j) in
               store (world b) = store w
               ∧ rejected b = None
               ∧ length (tasks b) = length adds
               ∧ ∀ i a, adds !! i = Some a →
                        tasks b !! i
                        = Some (if decide (i < j)%nat
                                then await (SegmentStore_addToStrategy a sid)
                                else SegmentService.addToStrategy config a sid))
    as Hprefix.
  { induction j as [|j IH]; intros Hj.
    - cbn [seq foldl]. cbv zeta. split; [done|].
      split. { apply start_not_rejected, Forall_fmap, Forall_forall. done. }
      split; [apply length_fmap|].
      intros i a Hi. cbn [start tasks]. unfold ts.
      rewrite list_lookup_fmap, Hi. cbn. by rewrite decide_False by lia.
    - rewrite seq_S, foldl_snoc. cbn [Nat.add].
      destruct IH as (Hs & Hrej & Hlen & Hts); [lia|].
      set (b := foldl advance (start ts w) (seq 0 j)) in *.
      destruct (lookup_lt_is_Some_2 adds j) as [a Ha]; [lia|].
      pose proof (Hts j a Ha) as Htj. rewrite decide_False in Htj by lia.
      cbv zeta. rewrite (advance_eq b j _ Htj), resume_addToStrategy.
      rewrite Hs.
      destruct (Z.geb_spec
                  (Z.of_nat (length (Store.getByStrategy sid (store w))))
                  (strategySegmentsLimit config)) as [?|_]; [lia|].
      cbn [tasks rejected world store log fst snd rejection await].
      rewrite Hrej. split; [done|]. split; [done|].
      split; [by rewrite length_insert|].
      intros i a' Hi. destruct (decide (i = j)) as [->|Hij].
      + rewrite list_lookup_insert_eq by lia.
        rewrite decide_True by lia. congruence.
      + rewrite list_lookup_insert_ne by done. rewrite (Hts i a' Hi).
        destruct (decide (i < j)%nat), (decide (i < S j)%nat); try done; lia. }
  destruct (Hprefix (length adds)) as (Hs & Hrej & Hlen & Hts); [lia|].
  cbv zeta. split; [done|]. split; [done|].
  apply Forall2_same_length_lookup. split; [done|].
  intros i a t Hi Ht. rewrite (Hts i a Hi) in Ht.
  apply lookup_lt_Some in Hi. rewrite decide_True in Ht by done. congruence.
Qed.

(** Once every member has passed its check, nothing can fail any more:
    every write is served and the batch succeeds. *)
Lemma writes_after_checks (sid : string) (adds : list nat)
    (schedule : list nat) (b : Batch) :
  rejected b = None →
  Forall2 (λ a t, t = await (SegmentStore_addToStrategy a sid))
    adds (tasks b) →
  rejected (settle_all schedule b) = None
  ∧ ∀ a, a ∈ adds →
         (a, sid) ∈ Store.links (store (world (settle_all schedule b))).
Proof.
  intros Hrej Hts.
  pose (I := λ b : Batch,
          rejected b = None
          ∧ Forall2
              (λ a t,
                 t = await (SegmentStore_addToStrategy a sid)
                 ∨ (t = Return ()
                    ∧ (a, sid) ∈ Store.links (store (world b))))
              adds (tasks b)).
  assert (I (settle_all schedule b)) as [Hnone Hend].
  { apply settle_all_invariant.
    - clear. intros b i [Hrej Hts].
      destruct (tasks b !! i) as [t|] eqn:Hi;
        [|unfold advance; by rewrite Hi].
      destruct (Forall2_lookup_r _ _ _ _ _ Hts Hi) as (a & Ha & Ht).
      rewrite (advance_eq b i t Hi).
      destruct Ht as [->|[-> Hl]].
      + rewrite resume_await_addToStrategy. unfold I.
        cbn [tasks rejected world store log fst snd rejection].
        rewrite Hrej. split; [done|].
        rewrite <- (list_insert_id adds i a) by done.
        apply Forall2_insert.
        * eapply Forall2_impl; [done|]. intros a' t' [->|[-> ?]]; [by left|].
          right. split; [done|]. cbn. apply elem_of_union. by right.
        * right. split; [done|]. cbn. apply elem_of_union. left.
          by apply elem_of_singleton.
      + unfold I. cbn [tasks rejected world resume fst snd rejection].
        rewrite Hrej, list_insert_id by done. done.
    - split; [done|]. eapply Forall2_impl; [done|]. intros a t ->. by left. }
  split; [done|]. intros a Ha.
  apply list_elem_of_lookup in Ha as [i Hi].
  destruct (Forall2_lookup_l _ _ _ _ _ Hend Hi) as (t & Hti & Ht).
  pose proof (settle_all_settled schedule b) as Hdone.
  eapply Forall_lookup_1 in Hdone; [|done].
  by destruct Ht as [->|[_ ?]].
Qed.

(** On a strategy that is at its limit or over it, every member of a
    batch of additions fails its check whenever it is served: nothing is
    written. *)
Lemma additions_to_full_strategy (config : IUnleashConfig)
    (schedule : list nat) (sid : string) (adds : list nat) (w : World) :
  strategySegmentsLimit config
  ≤ Z.of_nat (length (Store.getByStrategy sid (store w))) →
  let out :=
    Promise_all schedule
      ((λ a, SegmentService.addToStrategy config a sid) <$> adds) w in
  store out.2 = store w
  ∧ (adds ≠ [] →
     out.1 = Err (StrategyLimitExceededError (strategySegmentsLimit config))).
Proof.
  intros Hfull.
  set (err := StrategyLimitExceededError (strategySegmentsLimit config)).
  set (ts := (λ a, SegmentService.addToStrategy config a sid) <$> adds).
  pose (I := λ b : Batch,
          store (world b) = store w
          ∧ (rejected b = None ∨ rejected b = Some err)
          ∧ Forall2
              (λ a t,
                 t = SegmentService.addToStrategy config a sid
                 ∨ (t = Throw err ∧ rejected b ≠ None))
              adds (tasks b)).
  assert (I (settle_all schedule (start ts w))) as (Hs & Hrej & Hts).
  { apply settle_all_invariant.
    - clear schedule. intros b i (Hs & Hrej & Hts).
      destruct (tasks b !! i) as [t|] eqn:Hi;
        [|unfold advance; by rewrite Hi].
      destruct (Forall2_lookup_r _ _ _ _ _ Hts Hi) as (a & Ha & Ht).
      rewrite (advance_eq b i t Hi).
      destruct Ht as [->|[-> Hsome]].
      + rewrite resume_addToStrategy, Hs.
        destruct (Z.geb_spec
                    (Z.of_nat (length (Store.getByStrategy sid (store w))))
                    (strategySegmentsLimit config)) as [_|?]; [|lia].
        unfold I. cbn [tasks rejected world store log fst snd rejection].
        fold err.
        assert (match rejected b with
                | Some e => Some e
                | None => Some err
                end = Some err) as -> by (by destruct Hrej as [->| ->]).
        split; [done|]. split; [by right|].
        rewrite <- (list_insert_id adds i a) by done.
        apply Forall2_insert; [|by right].
        eapply Forall2_impl; [done|]. intros a' t' [->|[-> ?]];
          [by left|by right].
      + unfold I. cbn [tasks rejected world resume fst snd rejection].
        rewrite list_insert_id by done.
        assert (match rejected b with
                | Some e => Some e
                | None => Some err
                end = rejected b) as -> by (by destruct (rejected b)).
        done.
    - split; [done|]. split.
      + left. apply start_not_rejected, Forall_fmap, Forall_forall. done.
      + apply Forall2_fmap_self. intros a _. by left. }
  cbv zeta. unfold Promise_all, outcome. fold ts. cbn [fst snd].
  split; [done|]. intros Hne.
  destruct adds as [|a adds]; [done|].
  destruct (Forall2_lookup_l _ _ _ 0%nat a Hts eq_refl) as (t & Hti & Ht).
  pose proof (settle_all_settled schedule (start ts w)) as Hdone.
  eapply Forall_lookup_1 in Hdone; [|done].
  destruct Ht as [->|[_ Hsome]]; [done|].
  by destruct Hrej as [Hnone| ->].
Qed.


(** X15. A [cloneStrategySegments] that succeeds has put every segment of
    the source on the target, and it does succeed, whatever the order in
    which the batch is served, when the target has room for as many
    segments as the source holds. *)
Theorem clone_copies_every_segment (config : IUnleashConfig)
    (adding : list nat) (source target : string) (w : World) :
  let out :=
    SegmentService.cloneStrategySegments config adding source target w in
  (out.1 = Ok () →
   ∀ x, x ∈ id <$> Store.getByStrategy source (store w) →
        x ∈ id <$> Store.getByStrategy target (store out.2))
  ∧ (Z.of_nat (length (Store.getByStrategy target (store w)))
     + Z.of_nat (length (Store.getByStrategy source (store w)))
     ≤ strategySegmentsLimit config →
     out.1 = Ok ()).
Proof.
  intros out. subst out. rewrite cloneStrategySegments_eq.
  destruct (Promise_all_addToStrategy config adding target
              (id <$> Store.getByStrategy source (store w))
              (log w [call (SegmentStore_getByStrategy source)] (store w)))
    as (Hrows & _ & _ & _ & _ & _ & _ & _ & Hall & Hroom).
  cbn [store log] in *. split.
  - intros Hok x Hx. apply elem_of_getByStrategy_ids. rewrite Hrows.
    split; [by apply elem_of_getByStrategy_ids in Hx as [? _]|].
    by apply Hall.
  - intros Hfit. apply Hroom. rewrite length_fmap. lia.
Qed.

(** X16. Cloning onto a target that is at its limit, or over it, writes
    nothing, whatever the order in which the batch is served; it fails
    with the limit error unless the source has no segment at all. *)
Theorem clone_onto_full_target (config : IUnleashConfig) (adding : list nat)
    (source target : string) (w : World) :
  strategySegmentsLimit config
  ≤ Z.of_nat (length (Store.getByStrategy target (store w))) →
  let out :=
    SegmentService.cloneStrategySegments config adding source target w in
  store out.2 = store w
  ∧ (Store.getByStrategy source (store w) ≠ [] →
     out.1 = Err (StrategyLimitExceededError (strategySegmentsLimit config)))
  ∧ (Store.getByStrategy source (store w) = [] → out.1 = Ok ()).
Proof.
  intros Hfull out. subst out. rewrite cloneStrategySegments_eq.
  destruct (additions_to_full_strategy config adding target
              (id <$> Store.getByStrategy source (store w))
              (log w [call (SegmentStore_getByStrategy source)] (store w))
              Hfull) as [Hs Herr].
  split; [done|]. split.
  - intros Hne. apply Herr. by destruct (Store.getByStrategy source (store w)).
  - intros ->. cbn [fmap list_fmap]. by rewrite Promise_all_nil.
Qed.

(** X17. The limit checks of a clone do not see each other's writes.
    When the stores serve all the checks before any write and the target
    is below its limit, every check passes: the clone succeeds and puts
    every segment of the source on the target, which thereby holds at
    least as many segments as the source, however small the limit. *)
Theorem clone_checks_before_writes_pass (config : IUnleashConfig)
    (rest : list nat) (source target : string) (w : World) :
  Z.of_nat (length (Store.getByStrategy target (store w)))
  < strategySegmentsLimit config →
  let n := length (Store.getByStrategy source (store w)) in
  let out :=
    SegmentService.cloneStrategySegments config (seq 0 n ++ rest) source
      target w in
  out.1 = Ok ()
  ∧ (∀ x, x ∈ id <$> Store.getByStrategy source (store w) →
          x ∈ id <$> Store.getByStrategy target (store out.2))
  ∧ (n ≤ length (Store.getByStrategy target (store out.2)))%nat.
Proof.
  intros Hfree n out.
  set (adds := id <$> Store.getByStrategy source (store w)).
  set (w1 := log w [call (SegmentStore_getByStrategy source)] (store w)).
  assert (n = length adds) as Hn by (unfold adds; by rewrite length_fmap).
  destruct (checks_served_first config target adds w1 Hfree)
    as (_ & Hrej & Hts).
  destruct (writes_after_checks target adds rest _ Hrej Hts) as [Hnone Hall].
  rewrite <- settle_all_app, <- Hn in Hnone, Hall.
  assert (out
          = outcome
              (settle_all (seq 0 n ++ rest)
                 (start ((λ a, SegmentService.addToStrategy config a target)
                           <$> adds) w1))) as Hout.
  { subst out. by rewrite cloneStrategySegments_eq. }
  assert (Store.rows (store out.2) = Store.rows (store w)) as Hrows.
  { subst out. rewrite cloneStrategySegments_eq.
    by destruct (Promise_all_addToStrategy config (seq 0 n ++ rest) target
                   adds w1) as (Hrows & _). }
  assert (∀ x, x ∈ adds →
               x ∈ id <$> Store.getByStrategy target (store out.2)) as Hon.
  { intros x Hx. apply elem_of_getByStrategy_ids. rewrite Hrows.
    split; [by apply elem_of_getByStrategy_ids in Hx as [? _]|].
    rewrite Hout. by apply Hall. }
  split; [by rewrite Hout; unfold outcome; rewrite Hnone|].
  split; [done|].
  rewrite Hn, <- (length_fmap id (Store.getByStrategy target _)).
  apply submseteq_length, NoDup_submseteq; [apply NoDup_getByStrategy_ids|done].
Qed.

(** A member of a batch of additions that is run to its end on its own:
    the others are left as they are, and the link is written exactly
    when the strategy was below its limit. *)
Lemma finish_addToStrategy (config : IUnleashConfig) (a : nat) (sid : string)
    (b : Batch) (i : nat) :
  tasks b !! i = Some (SegmentService.addToStrategy config a sid) →
  let b' := finish b i in
  length (tasks b') = length (tasks b)
  ∧ (∀ j, j ≠ i → tasks b' !! j = tasks b !! j)
  ∧ (if Z.of_nat (length (Store.getByStrategy sid (store (world b))))
        >=? strategySegmentsLimit config
     then store (world b') = store (world b)
     else store (world b') = Store.addToStrategy a sid (store (world b))).
Proof.
  intros Hi. assert (i < length (tasks b))%nat as Hlt
    by (by eapply lookup_lt_Some).
  cbv zeta. unfold finish. rewrite Hi.
  assert (remaining (SegmentService.addToStrategy config a sid) (world b)
          = if Z.of_nat (length (Store.getByStrategy sid (store (world b))))
               >=? strategySegmentsLimit config
            then 1%nat else 2%nat) as ->.
  { cbn. by destruct (_ >=? _). }
  destruct (_ >=? _) eqn:Hfull; cbn [replicate foldl].
  - rewrite (advance_eq b i _ Hi), resume_addToStrategy, Hfull.
    cbn [tasks world store log fst snd].
    split; [apply length_insert|]. split; [|done].
    intros j Hj. by rewrite list_lookup_insert_ne.
  - rewrite (advance_eq b i _ Hi), resume_addToStrategy, Hfull.
    cbn [fst snd].
    erewrite advance_eq by (cbn [tasks]; by apply list_lookup_insert_eq).
    rewrite resume_await_addToStrategy.
    cbn [tasks world store log fst snd].
    split; [by rewrite !length_insert|]. split; [|done].
    intros j Hj. by rewrite !list_lookup_insert_ne.
Qed.

(** X18. Served one member after the other, in order, a clone respects
    the limit: afterwards the target has no more segments than it had
    before or than [strategySegmentsLimit], whichever is larger. *)
Theorem clone_in_turn_keeps_limit (config : IUnleashConfig)
    (source target : string) (w : World) :
  let out :=
    SegmentService.cloneStrategySegments config [] source target w in
  Z.of_nat (length (Store.getByStrategy target (store out.2)))
  ≤ Z.max (Z.of_nat (length (Store.getByStrategy target (store w))))
      (strategySegmentsLimit config).
Proof.
  intros out. subst out. rewrite cloneStrategySegments_eq.
  set (adds := id <$> Store.getByStrategy source (store w)).
  set (w1 := log w [call (SegmentStore_getByStrategy source)] (store w)).
  set (ts := (λ a, SegmentService.addToStrategy config a target) <$> adds).
  set (bound := Z.max (Z.of_nat (length (Store.getByStrategy target (store w))))
                  (strategySegmentsLimit config)).
  unfold Promise_all, outcome, settle_all. cbn [foldl fst snd start tasks].
  fold ts.
  assert (∀ j, (j ≤ length adds)%nat →
               let b := foldl finish (start ts w1) (seq 0 j) in
               length (tasks b) = length adds
               ∧ (∀ i a, adds !! i = Some a → (j ≤ i)%nat →
                         tasks b !! i
                         = Some (SegmentService.addToStrategy config a target))
               ∧ Z.of_nat (length (Store.getByStrategy target
                                     (store (world b)))) ≤ bound)
    as Hturns.
  { induction j as [|j IH]; intros Hj.
    - cbn [seq foldl]. cbv zeta. split; [apply length_fmap|]. split.
      + intros i a Hi _. cbn [start tasks]. unfold ts.
        by rewrite list_lookup_fmap, Hi.
      + cbn. unfold bound. lia.
    - rewrite seq_S, foldl_snoc. cbn [Nat.add].
      destruct IH as (Hlen & Hts & Hcount); [lia|].
      set (b := foldl finish (start ts w1) (seq 0 j)) in *.
      destruct (lookup_lt_is_Some_2 adds j) as [a Ha]; [lia|].
      destruct (finish_addToStrategy config a target b j (Hts j a Ha (le_n j)))
        as (Hlen' & Hother & Hstore).
      cbv zeta. split; [by rewrite Hlen'|]. split.
      + intros i a' Hi Hji. rewrite Hother by lia. apply Hts; [done|lia].
      + destruct (Z.geb_spec
                    (Z.of_nat (length (Store.getByStrategy target
                                         (store (world b)))))
                    (strategySegmentsLimit config)) as [_|Hfree];
          rewrite Hstore; [done|].
        pose proof (count_after_addToStrategy a target (store (world b))).
        unfold bound in *. lia. }
  replace (length ts) with (length adds)
    by (unfold ts; by rewrite length_fmap).
  by destruct (Hturns (length adds)) as (_ & _ & Hcount).
Qed.

(** X19. [updateStrategySegments] with no ids clears the strategy: when
    the limit is not negative it succeeds, under any schedule, and no
    segment is on the strategy afterwards; with a negative limit even
    this call is rejected, before any request. *)
Theorem reconcile_to_nothing (config : IUnleashConfig)
    (removing adding : list nat) (strategyId : string) (w : World) :
  let out :=
    SegmentService.updateStrategySegments config removing adding strategyId
      [] w in
  (0 ≤ strategySegmentsLimit config →
   out.1 = Ok () ∧ Store.getByStrategy strategyId (store out.2) = [])
  ∧ (strategySegmentsLimit config < 0 →
     out = (Err (StrategyLimitExceededError (strategySegmentsLimit config)),
            w)).
Proof.
  intros out.
  assert (out
          = if 0 >? strategySegmentsLimit config
            then (Err (StrategyLimitExceededError
                         (strategySegmentsLimit config)), w)
            else
              Promise_all removing
                ((λ r, SegmentService.removeFromStrategy r strategyId)
                   <$> filter (λ x, x ∉ [])
                         (id <$> Store.getByStrategy strategyId (store w)))
                (log w [call (SegmentStore_getByStrategy strategyId)]
                   (store w))) as Hout.
  { subst out. rewrite updateStrategySegments_eq. cbn [length Z.of_nat].
    destruct (_ >? _); [done|]. cbv zeta. cbn [filter list_filter fmap list_fmap].
    destruct (Promise_all removing _ _) as [[[]|e] w2]; [|done].
    by rewrite Promise_all_nil. }
  destruct (Z.gtb_spec 0 (strategySegmentsLimit config)) as [Hneg|Hok].
  { split; [lia|done]. }
  split; [|lia]. intros _.
  destruct (Promise_all_removeFromStrategy removing strategyId
              (filter (λ x, x ∉ [])
                 (id <$> Store.getByStrategy strategyId (store w)))
              (log w [call (SegmentStore_getByStrategy strategyId)] (store w)))
    as (Hres & Hs2 & _).
  rewrite <- Hout in Hres, Hs2. split; [done|].
  destruct (Store.getByStrategy strategyId (store out.2)) as [|seg segs] eqn:Hleft;
    [done|].
  exfalso.
  assert (id seg ∈ id <$> Store.getByStrategy strategyId (store out.2)) as Hin
    by (rewrite Hleft; constructor).
  apply elem_of_getByStrategy_ids in Hin as [Hrow Hl].
  rewrite Hs2 in Hrow, Hl. cbn in Hrow, Hl.
  apply elem_of_difference in Hl as [Hl Hkept]. apply Hkept.
  apply elem_of_list_to_set, list_elem_of_fmap. exists (id seg).
  split; [done|]. apply list_elem_of_filter. split; [apply not_elem_of_nil|].
  apply elem_of_getByStrategy_ids. by split.
Qed.

(** X20. Deleting a segment frees its name: once [delete] has succeeded,
    a [create] under a name that only the deleted segment had passes its
    checks and succeeds, given well-formed input within the values
    limit. *)
Theorem delete_frees_the_name (config : IUnleashConfig) {Raw : Type}
    (segmentSchema : Raw → option Input.t) (k : nat) (raw : Raw)
    (user user' : User) (w w1 : World) (input : Input.t) :
  run (SegmentService.delete k user) w = (Ok (), w1) →
  segmentSchema raw = Some input →
  Z.of_nat (sum_list_with (λ c, length (default [] (values c)))
              (Input.constraints input))
  ≤ segmentValuesLimit config →
  Input.name input ≠ EmptyString →
  (∀ seg, seg ∈ Store.getAll (store w) → name seg = Input.name input →
          id seg = k) →
  ∃ segment,
    (run (SegmentService.create config segmentSchema raw user') w1).1
    = Ok segment
    ∧ name segment = Input.name input.
Proof.
  rewrite run_delete.
  destruct (Store.get k (store w)) as [pre|e] eqn:Hget; [|done].
  intros [= <-] Hv Hfew Hname Honly.
  rewrite run_create, Hv, valuesCount_total.
  destruct (Z.gtb_spec
              (Z.of_nat (sum_list_with (λ c, length (default [] (values c)))
                           (Input.constraints input)))
              (segmentValuesLimit config)) as [?|_]; [lia|].
  rewrite run_validateName.
  assert (JS.not_string (Input.name input) = false) as ->
    by (apply not_true_iff_false; by rewrite not_string_true).
  cbn [store log].
  assert (Store.existsByName (Input.name input)
            (Store.storeEvent (deleted_event user pre)
               (Store.delete k (store w))) = false) as ->.
  { apply not_true_iff_false. rewrite existsByName_true.
    intros (seg & Hseg & Hn). apply elem_of_getAll in Hseg as (r & Hr & Heq).
    cbn in Hr. destruct (decide (id seg = k)) as [Hk|Hk].
    - rewrite Hk, lookup_delete_eq in Hr. done.
    - rewrite lookup_delete_ne in Hr by done. apply Hk, Honly; [|done].
      apply elem_of_getAll. by exists r. }
  cbn. eexists. by split.
Qed.

(** ** The further properties in the example world *)


Lemma update_check_order_witness :
  run (SegmentService.update Sample.config Sample.segmentSchema 9
         (Some (Sample.input "ghost" None ["a"; "b"; "c"; "d"])) Sample.admin)
    Sample.world
  = (Err (ValuesLimitExceededError 3), Sample.world)
  ∧ run (SegmentService.update Sample.config Sample.segmentSchema 9
           (Some (Sample.input "ghost" None ["a"])) Sample.admin)
      Sample.world
    = (Err NotFoundError,
       log Sample.world [call (SegmentStore_get 9)] Sample.segments).
Proof.
  split.
  - refine (proj1 (proj2
              (update_check_order Sample.config Sample.segmentSchema 9
                 (Some (Sample.input "ghost" None ["a"; "b"; "c"; "d"]))
                 Sample.admin Sample.world) _ eq_refl) _).
    by vm_compute.
  - refine (proj2 (proj2
              (update_check_order Sample.config Sample.segmentSchema 9
                 (Some (Sample.input "ghost" None ["a"])) Sample.admin
                 Sample.world) _ eq_refl) _ _).
    + vm_compute. by intros [=].
    + by vm_compute.
Defined.

Lemma update_replaces_one_row_witness :
  let after :=
    (run (SegmentService.update Sample.config Sample.segmentSchema 1
            (Some (Sample.input "beta" (Some "P") ["se"])) Sample.admin)
       Sample.world).2 in
  ∃ input r,
    Sample.segmentSchema (Some (Sample.input "beta" (Some "P") ["se"]))
    = Some input
    ∧ Store.rows Sample.segments !! 1%nat = Some r
    ∧ Store.rows (store after)
      = <[1%nat := {| Store.row_input := input;
                      Store.row_createdBy := Store.row_createdBy r;
                      Store.row_createdAt := Store.row_createdAt r |}]>
          (Store.rows Sample.segments)
    ∧ Store.links (store after) = Store.links Sample.segments
    ∧ Store.strategies (store after) = Store.strategies Sample.segments
    ∧ Store.clock (store after) = Store.clock Sample.segments.
Proof.
  cbv zeta.
  apply (update_replaces_one_row Sample.config Sample.segmentSchema 1
           (Some (Sample.input "beta" (Some "P") ["se"])) Sample.admin
           Sample.world).
  by vm_compute.
Defined.

Lemma delete_cascades_witness :
  run (SegmentService.delete 9 Sample.admin) Sample.world
  = (Err NotFoundError,
     log Sample.world [call (SegmentStore_get 9)] Sample.segments)
  ∧ (run (SegmentService.delete 0 Sample.admin) Sample.world).1 = Ok ()
  ∧ ∀ sid, 0%nat ∉ id <$> Store.getByStrategy sid
                            (store (run (SegmentService.delete 0 Sample.admin)
                                      Sample.world).2).
Proof.
  split.
  - apply (delete_cascades 9 Sample.admin Sample.world). by vm_compute.
  - assert (is_Some (Store.rows (store Sample.world) !! 0%nat)) as Hrow
      by (vm_compute; eauto).
    split.
    + by apply (delete_cascades 0 Sample.admin Sample.world).
    + by apply (delete_cascades 0 Sample.admin Sample.world).
Defined.

Lemma delete_twice_not_found_witness :
  let first := run (SegmentService.delete 2 Sample.admin) Sample.world in
  let again := run (SegmentService.delete 2 Sample.nobody) first.2 in
  again.1 = Err NotFoundError
  ∧ store again.2 = store first.2
  ∧ length (Store.events (store again.2)) = 1%nat.
Proof.
  cbv zeta.
  apply (delete_twice_not_found 2 Sample.admin Sample.nobody Sample.world).
  by vm_compute.
Defined.

Lemma validateName_reads_only_witness :
  run (SegmentService.validateName EmptyString) Sample.world
  = (Err EmptyNameError, Sample.world)
  ∧ (run (SegmentService.validateName "staff") Sample.world).1
    = Err DuplicateNameError.
Proof.
  split.
  - by apply (validateName_reads_only EmptyString Sample.world).
  - apply (validateName_reads_only "staff" Sample.world); [done|].
    exists (Store.to_segment 2 (Sample.row "staff")).
    split; [apply elem_of_getAll; by eexists|done].
Defined.

Lemma create_same_name_twice_witness :
  let first :=
    run (SegmentService.create Sample.config Sample.segmentSchema
           (Some (Sample.input "nordics" None ["se"])) Sample.admin)
      Sample.world in
  (run (SegmentService.create Sample.config Sample.segmentSchema
          (Some (Sample.input "nordics" (Some "P") ["no"; "dk"]))
          Sample.nobody) first.2).1
  = Err DuplicateNameError.
Proof.
  cbv zeta.
  eapply (create_same_name_twice Sample.config Sample.segmentSchema
            (Some (Sample.input "nordics" None ["se"]))
            (Some (Sample.input "nordics" (Some "P") ["no"; "dk"]))
            Sample.admin Sample.nobody Sample.world).
  - by vm_compute.
  - reflexivity.
  - reflexivity.
  - vm_compute. by intros [=].
Defined.


Lemma add_then_remove_restores_witness :
  let added :=
    run (SegmentService.addToStrategy Sample.config 2 "strat-3")
      Sample.world in
  let out := run (SegmentService.removeFromStrategy 2 "strat-3") added.2 in
  out.1 = Ok () ∧ store out.2 = Sample.segments.
Proof.
  cbv zeta.
  apply (add_then_remove_restores Sample.config 2 "strat-3" Sample.world).
  - vm_compute. by intros [=].
  - by vm_compute.
Defined.


Lemma reconcile_ends_within_limit_witness :
  Z.of_nat
    (length (Store.getByStrategy "strat-1"
               (store (SegmentService.updateStrategySegments Sample.config []
                         [] "strat-1" [2; 2]%nat Sample.world).2)))
  ≤ 2.
Proof.
  apply (reconcile_ends_within_limit Sample.config [] [] "strat-1"
           [2; 2]%nat Sample.world).
  by vm_compute.
Defined.

Lemma reconcile_twice_writes_nothing_witness :
  let first :=
    SegmentService.updateStrategySegments Sample.config [0]%nat [0; 0]%nat
      "strat-1" [2; 1]%nat Sample.world in
  SegmentService.updateStrategySegments Sample.config [] [] "strat-1"
    [2; 1]%nat first.2
  = (Ok (),
     log first.2 [call (SegmentStore_getByStrategy "strat-1")] (store first.2)).
Proof.
  cbv zeta.
  apply (reconcile_twice_writes_nothing Sample.config [0]%nat [0; 0]%nat [] []
           "strat-1" [2; 1]%nat Sample.world).
  - intros x Hx. apply elem_of_cons in Hx as [->|Hx]; [vm_compute; eauto|].
    apply list_elem_of_singleton in Hx as ->. vm_compute. eauto.
  - by vm_compute.
Defined.


Lemma clone_copies_every_segment_witness :
  (SegmentService.cloneStrategySegments Sample.config [1; 0; 1]%nat "strat-1"
     "strat-3" Sample.world).1 = Ok ().
Proof.
  apply (clone_copies_every_segment Sample.config [1; 0; 1]%nat "strat-1"
           "strat-3" Sample.world).
  vm_compute. by intros [=].
Defined.

Lemma clone_onto_full_target_witness :
  let out :=
    SegmentService.cloneStrategySegments Sample.config [0]%nat "strat-2"
      "strat-1" Sample.world in
  store out.2 = Sample.segments
  ∧ out.1 = Err (StrategyLimitExceededError 2).
Proof.
  cbv zeta.
  assert (strategySegmentsLimit Sample.config
          ≤ Z.of_nat (length (Store.getByStrategy "strat-1"
                                (store Sample.world)))) as Hfull
    by (vm_compute; by intros [=]).
  split.
  - by apply (clone_onto_full_target Sample.config [0]%nat "strat-2"
                "strat-1" Sample.world Hfull).
  - apply (clone_onto_full_target Sample.config [0]%nat "strat-2" "strat-1"
             Sample.world Hfull).
    by vm_compute.
Defined.

(** With a limit of one, the two segments of ["strat-1"] both arrive on
    the empty ["strat-3"] when both checks are served first. *)
Lemma clone_checks_before_writes_pass_witness :
  let config := {| strategySegmentsLimit := 1; segmentValuesLimit := 3 |} in
  let out :=
    SegmentService.cloneStrategySegments config (seq 0 2 ++ []) "strat-1"
      "strat-3" Sample.world in
  out.1 = Ok ()
  ∧ (2 ≤ length (Store.getByStrategy "strat-3" (store out.2)))%nat.
Proof.
  cbv zeta.
  assert (Z.of_nat (length (Store.getByStrategy "strat-3"
                              (store Sample.world))) < 1) as Hfree
    by (by vm_compute).
  split.
  - by apply (clone_checks_before_writes_pass
                {| strategySegmentsLimit := 1; segmentValuesLimit := 3 |} []
                "strat-1" "strat-3" Sample.world Hfree).
  - by apply (clone_checks_before_writes_pass
                {| strategySegmentsLimit := 1; segmentValuesLimit := 3 |} []
                "strat-1" "strat-3" Sample.world Hfree).
Defined.

Lemma reconcile_to_nothing_witness :
  Store.getByStrategy "strat-1"
    (store (SegmentService.updateStrategySegments Sample.config [1]%nat []
              "strat-1" [] Sample.world).2)
  = [].
Proof.
  apply (reconcile_to_nothing Sample.config [1]%nat [] "strat-1"
           Sample.world).
  vm_compute. by intros [=].
Defined.

Lemma delete_frees_the_name_witness :
  let deleted := run (SegmentService.delete 2 Sample.admin) Sample.world in
  ∃ segment,
    (run (SegmentService.create Sample.config Sample.segmentSchema
            (Some (Sample.input "staff" None ["de"])) Sample.nobody)
       deleted.2).1 = Ok segment
    ∧ name segment = "staff".
Proof.
  cbv zeta.
  apply (delete_frees_the_name Sample.config Sample.segmentSchema 2
           (Some (Sample.input "staff" None ["de"])) Sample.admin
           Sample.nobody Sample.world
           (run (SegmentService.delete 2 Sample.admin) Sample.world).2
           (Sample.input "staff" None ["de"])).
  - by vm_compute.
  - reflexivity.
  - vm_compute. by intros [=].
  - done.
  - intros seg Hseg Hn. apply elem_of_getAll in Hseg as (r & Hr & Heq).
    rewrite Heq in Hn. cbn in Hn.
    destruct (decide (id seg = 2%nat)) as [|Hne2]; [done|].
    exfalso.
    destruct (decide (id seg = 1%nat)) as [H1|Hne1].
    { rewrite H1 in Hr. vm_compute in Hr. injection Hr as <-.
      vm_compute in Hn. discriminate Hn. }
    destruct (decide (id seg = 0%nat)) as [H0|Hne0].
    { rewrite H0 in Hr. vm_compute in Hr. injection Hr as <-.
      vm_compute in Hn. discriminate Hn. }
    unfold Sample.world, Sample.segments in Hr. cbn in Hr.
    rewrite !lookup_insert_ne, lookup_empty in Hr by done. done.
Defined.
